(** * webscope backend: signaling registry, frame clock and broadcast loop

    A shallow embedding of [backend/main.py]:
    - the frame clock ([next_frame_n], [periodic_frames]),
    - the channel registry and the broadcast loop ([channel_broadcast]:
      [add_channel], [send_frames]),
    - the connection manager ([connection_handler]: [offer], [on_shutdown]),
    - the frame generator ([gen_frame], [frame_from_arrays]).

    Python sets and dicts are stdpp [gset]s and [gmap]s, Python integers are
    [Z], binary64 floats are the kernel's primitive floats. *)

From Stdlib Require Import ZArith Floats Sorted.
From stdpp Require Import gmap strings list fin_sets.

Open Scope Z_scope.

(* ===================================================================== *)
(** ** Frame clock *)
(* ===================================================================== *)

Module FrameClock.

(** [frame_n_bytes = 2] *)
Definition frame_n_bytes : Z := 2.

(** [n_of_unique_frames = (2**8) ** frame_n_bytes] *)
Definition n_of_unique_frames : Z := (2 ^ 8) ^ frame_n_bytes.

(** [def next_frame_n(frame_n): return (frame_n + 1) % n_of_unique_frames].
    Python's [%] with a positive modulus is the floor modulus, as [Z.modulo]. *)
Definition next_frame_n (frame_n : Z) : Z :=
  (frame_n + 1) mod n_of_unique_frames.

(** [periodic_frames] starts at [frame_n = 0], yields [frame_n] and, when it
    is resumed, replaces it by [next_frame_n frame_n]. The value yielded at
    the [k]-th tick (counting from 0) is therefore [next_frame_n] iterated
    [k] times on 0. The measured durations only feed a log line and the
    length of the sleep, they never reach [frame_n]. *)
Definition periodic_frames_start : Z := 0.

Fixpoint periodic_frames (k : nat) : Z :=
  match k with
  | O => periodic_frames_start
  | S k' => next_frame_n (periodic_frames k')
  end.

End FrameClock.

(* ===================================================================== *)
(** ** Channel registry and broadcast loop ([channel_broadcast]) *)
(* ===================================================================== *)

Module Broadcast.
Import FrameClock.

(** An [RTCDataChannel] object, by identity. *)
Abbreviation channel := nat.

(** [channel.readyState] of the transport library. *)
Inductive ready_state := Connecting | Open | Closing | Closed.

#[global] Instance ready_state_eq_dec : EqDecision ready_state.
Proof. solve_decision. Defined.

(** What [channel.send(frame)] does: it returns, or raises
    [InvalidStateError] (the only exception [send_frames] handles). *)
Inductive send_outcome := Sent | InvalidStateError.

#[global] Instance send_outcome_eq_dec : EqDecision send_outcome.
Proof. solve_decision. Defined.

(** The transport as the loop sees it when it visits a channel: the outcome
    of [send] and the [readyState] read in the handler. A channel is
    visited at most once per cycle, so one [world] per cycle is general. *)
Record link := { send_result : send_outcome; readyState : ready_state }.
Definition world := channel → link.

(** One call [channel.send(gen_frame(frame_n))], for the trace. *)
Record delivery := { d_chan : channel; d_frame : Z; d_outcome : send_outcome }.

#[global] Instance delivery_eq_dec : EqDecision delivery.
Proof. solve_decision. Defined.

(** The closure variables of [channel_broadcast], the listener tables of
    the channels ([channel.on(event)]: each entry [(c, event)] is a handler
    whose body is [to_be_removed.add(c)]), and two traces: the arguments of
    the calls to [gen_frame] and the calls to [channel.send], oldest first. *)
Record registry := {
  channels : gset channel;
  to_be_removed : gset channel;
  listeners : list (channel * string);
  gen_calls : list Z;
  sent : list delivery
}.

Definition initial : registry :=
  {| channels := ∅; to_be_removed := ∅; listeners := []; gen_calls := []; sent := [] |}.

Definition set_channels (s : gset channel) (r : registry) : registry :=
  {| channels := s; to_be_removed := to_be_removed r; listeners := listeners r;
     gen_calls := gen_calls r; sent := sent r |}.

Definition set_to_be_removed (s : gset channel) (r : registry) : registry :=
  {| channels := channels r; to_be_removed := s; listeners := listeners r;
     gen_calls := gen_calls r; sent := sent r |}.

Definition on (c : channel) (event : string) (r : registry) : registry :=
  {| channels := channels r; to_be_removed := to_be_removed r;
     listeners := listeners r ++ [(c, event)];
     gen_calls := gen_calls r; sent := sent r |}.

Definition log_gen (n : Z) (r : registry) : registry :=
  {| channels := channels r; to_be_removed := to_be_removed r; listeners := listeners r;
     gen_calls := gen_calls r ++ [n]; sent := sent r |}.

Definition log_send (d : delivery) (r : registry) : registry :=
  {| channels := channels r; to_be_removed := to_be_removed r; listeners := listeners r;
     gen_calls := gen_calls r; sent := sent r ++ [d] |}.

(** [def add_channel(channel)]: registers [closing] on the event "closing",
    [closed] on the event "closedkfjsdk", then [channels.add(channel)]. *)
Definition add_channel (c : channel) (r : registry) : registry :=
  let r1 := on c "closing" r in
  let r2 := on c "closedkfjsdk" r1 in
  set_channels ({[c]} ∪ channels r2) r2.

(** The transport emits [event] on channel [c]: every handler registered on
    [c] for that event runs, in registration order; its body is
    [to_be_removed.add(c)] on the set the variable holds at that moment. *)
Definition fire (c : channel) (event : string) (r : registry)
    (l : channel * string) : registry :=
  if decide (l = (c, event)) then set_to_be_removed ({[l.1]} ∪ to_be_removed r) r else r.

Definition emit (c : channel) (event : string) (r : registry) : registry :=
  foldl (fire c event) r (listeners r).

(** The body of [for channel in channels] for one channel, frame index [n]. *)
Definition deliver (w : world) (n : Z) (r : registry) (c : channel) : registry :=
  if decide (c ∈ to_be_removed r) then r
  else
    let r1 := log_send {| d_chan := c; d_frame := n; d_outcome := send_result (w c) |} r in
    match send_result (w c) with
    | Sent => r1
    | InvalidStateError =>
        if decide (readyState (w c) ≠ Open)
        then set_to_be_removed ({[c]} ∪ to_be_removed r1) r1
        else r1
    end.

(** The body of [async for frame_n, time_taken in periodic_frames(interval)]
    in [send_frames], run without interleaving: swap the pending removals
    for an empty set, subtract them, skip the tick when nobody is left,
    otherwise build one frame and visit every channel. Python iterates a
    set in an unspecified order; the model visits [elements channels]. *)
Definition cycle (w : world) (n : Z) (r : registry) : registry :=
  let removing := to_be_removed r in
  let r1 := set_to_be_removed ∅ r in
  let r2 := set_channels (channels r1 ∖ removing) r1 in
  if decide (size (channels r2) ≤ 0)%nat then r2
  else
    let r3 := log_gen n r2 in
    foldl (deliver w n) r3 (elements (channels r3)).

(** *** The loop statement by statement

    [send_frames] runs on its own thread ([start]); [add_channel] and the
    channel events run on the thread of the web server. The control point
    of the loop thread: *)
Inductive pc :=
| Sleeping                          (* suspended in [periodic_frames], between two cycles *)
| Drained (removing : gset channel) (* [to_be_removed, removing = set(), to_be_removed] done *)
| Subtracted (diff : gset channel)  (* [channels - removing] evaluated, not yet stored *)
| Pruned                            (* [channels = channels - removing] done *)
| Generated                         (* [frame = gen_frame(frame_n)] done *)
| Delivering (rest : list channel) (used : nat)
                                    (* in the [for]: channels still to visit and the
                                       size the set iterator expects *)
| Crashed.                          (* RuntimeError: Set changed size during iteration *)

Record system := { frame_n : Z; at_pc : pc; reg : registry }.

Definition boot : system := {| frame_n := periodic_frames_start; at_pc := Sleeping; reg := initial |}.

(** One statement of the loop thread. Leaving the body of the [async for]
    resumes [periodic_frames], which advances [frame_n] and sleeps. *)
Definition loop_step (w : world) (s : system) : system :=
  let r := reg s in
  let n := frame_n s in
  match at_pc s with
  | Sleeping =>
      {| frame_n := n; at_pc := Drained (to_be_removed r); reg := set_to_be_removed ∅ r |}
  | Drained removing =>
      {| frame_n := n; at_pc := Subtracted (channels r ∖ removing); reg := r |}
  | Subtracted diff =>
      {| frame_n := n; at_pc := Pruned; reg := set_channels diff r |}
  | Pruned =>
      if decide (size (channels r) ≤ 0)%nat
      then {| frame_n := next_frame_n n; at_pc := Sleeping; reg := r |}
      else {| frame_n := n; at_pc := Generated; reg := log_gen n r |}
  | Generated =>
      {| frame_n := n; at_pc := Delivering (elements (channels r)) (size (channels r)); reg := r |}
  | Delivering rest used =>
      if decide (size (channels r) ≠ used)
      then {| frame_n := n; at_pc := Crashed; reg := r |}
      else match rest with
           | [] => {| frame_n := next_frame_n n; at_pc := Sleeping; reg := r |}
           | c :: rest' => {| frame_n := n; at_pc := Delivering rest' used; reg := deliver w n r c |}
           end
  | Crashed => s
  end.

(** What the other thread does between two statements of the loop. *)
Definition env_add (c : channel) (s : system) : system :=
  {| frame_n := frame_n s; at_pc := at_pc s; reg := add_channel c (reg s) |}.

Definition env_emit (c : channel) (event : string) (s : system) : system :=
  {| frame_n := frame_n s; at_pc := at_pc s; reg := emit c event (reg s) |}.

(** A whole cycle, from sleep to sleep. *)
Definition tick (w : world) (s : system) : system :=
  {| frame_n := next_frame_n (frame_n s); at_pc := Sleeping; reg := cycle w (frame_n s) (reg s) |}.

(** What happens to the system, seen at the cycle boundaries. *)
Inductive event :=
| Tick (w : world)
| AddChannel (c : channel)
| Emit (c : channel) (name : string).

Definition apply_event (s : system) (e : event) : system :=
  match e with
  | Tick w => tick w s
  | AddChannel c => env_add c s
  | Emit c name => env_emit c name s
  end.

Definition run (es : list event) (s : system) : system := foldl apply_event s es.

(** *** Vocabulary for the statements *)

(** A transport on which every channel is open and every send returns. *)
Definition all_open : world := λ _, {| send_result := Sent; readyState := Open |}.

(** The trace entry of visiting [c] with frame [n]. *)
Definition attempt (w : world) (n : Z) (c : channel) : delivery :=
  {| d_chan := c; d_frame := n; d_outcome := send_result (w c) |}.

(** [send] raises and the channel is not open any more: the handler queues
    the channel for removal. *)
Definition dropped (w : world) (c : channel) : Prop :=
  send_result (w c) = InvalidStateError ∧ readyState (w c) ≠ Open.

#[global] Instance dropped_dec w c : Decision (dropped w c).
Proof. unfold dropped. apply _. Defined.

(** The calls to [send] made between two states of the registry. *)
Definition sent_since (old new : registry) : list delivery :=
  drop (length (sent old)) (sent new).

Definition deliveries_to (c : channel) (l : list delivery) : list delivery :=
  filter (λ d, d_chan d = c) l.

Definition frames_to (c : channel) (l : list delivery) : list Z :=
  d_frame <$> deliveries_to c l.

(** The indices of the frames that reached [c]: the sends that returned. *)
Definition frames_delivered (c : channel) (l : list delivery) : list Z :=
  d_frame <$> filter (λ d, d_outcome d = Sent) (deliveries_to c l).

(** The event is a call [add_channel c]. *)
Definition adds (c : channel) (e : event) : Prop :=
  match e with AddChannel c' => c' = c | _ => False end.

(** Number of cycles in a list of events. *)
Fixpoint ticks (es : list event) : nat :=
  match es with
  | [] => O
  | Tick _ :: es' => S (ticks es')
  | _ :: es' => ticks es'
  end.

(** [c] is in the active set at every cycle boundary of the run [es] from [s]. *)
Fixpoint stays (c : channel) (es : list event) (s : system) : Prop :=
  c ∈ channels (reg s) ∧
  match es with
  | [] => True
  | e :: es' => stays c es' (apply_event s e)
  end.

(** The indices yielded by [k] consecutive resumptions of the clock when
    the current one is [n]. *)
Fixpoint clock_from (n : Z) (k : nat) : list Z :=
  match k with
  | O => []
  | S k' => n :: clock_from (next_frame_n n) k'
  end.

End Broadcast.

(* ===================================================================== *)
(** ** Connection manager ([connection_handler]) *)
(* ===================================================================== *)

Module Signaling.

(** A [uuid.UUID], by its 128-bit value, and an [RTCPeerConnection] object,
    by its identity. *)
Abbreviation uuid := N.
Abbreviation peer := nat.

(** A field of the JSON object of the request, as far as [dacite] tells
    values apart for [ConnectionInfo]: [null], a string, or anything else. *)
Inductive jvalue :=
| JNull
| JString (s : string)
| JBool (b : bool)
| JNumber (z : Z)
| JCompound.

(** What [await request.json()] gives. *)
Inductive payload :=
| NotJson                               (* the body is no JSON: [request.json()] raises *)
| NotAnObject                           (* JSON, but no object: [from_dict] raises *)
| Object (fields : gmap string jvalue).

(** [@dataclass(frozen=True) class ConnectionInfo: sdp: str; type: str;
    id: str | None = None] *)
Record ConnectionInfo := { info_sdp : string; info_type : string; info_id : option string }.

(** [RTCSessionDescription(sdp, type)] *)
Record RTCSessionDescription := { sdp : string; type : string }.

(** [ConnectionInfo.as_offer] *)
Definition as_offer (c : ConnectionInfo) : RTCSessionDescription :=
  {| sdp := info_sdp c; type := info_type c |}.

(** [dacite.from_dict(ConnectionInfo, data)] on a JSON object: [sdp] and
    [type] must be present and strings; [id] may be absent (the default
    [None]), [null] or a string; keys that are not fields are ignored.
    [None] stands for the exception the library raises. *)
Definition from_dict (data : gmap string jvalue) : option ConnectionInfo :=
  match data !! "sdp", data !! "type" with
  | Some (JString s), Some (JString t) =>
      match data !! "id" with
      | None | Some JNull => Some {| info_sdp := s; info_type := t; info_id := None |}
      | Some (JString i) => Some {| info_sdp := s; info_type := t; info_id := Some i |}
      | Some _ => None
      end
  | _, _ => None
  end.

(** [dacite.from_dict(ConnectionInfo, await request.json())] *)
Definition parse_request (req : payload) : option ConnectionInfo :=
  match req with
  | Object data => from_dict data
  | NotJson | NotAnObject => None
  end.

(** The exception that ends a call of [offer]. *)
Inductive error :=
| BadRequest          (* raised by [request.json()] or [dacite.from_dict] *)
| ValueError          (* raised by [uuid.UUID(conn_req.id)] *)
| KeyError            (* raised by [connections[id]] *)
| NegotiationError.   (* raised by the transport, or [assert ans is not None] *)

(** The outcome of [offer]: the JSON of [ConnectionInfo.from_offer(
    connection.localDescription, id)], whose [id] field is [str(id)], or
    the exception. *)
Inductive response :=
| Answer (desc : RTCSessionDescription) (id : uuid)
| Failure (e : error).

(** The closure variable [connections], the [RTCPeerConnection] objects
    created so far (the next one is number [peers]), the handlers registered
    on "connectionstatechange" (one per created connection, closing over its
    [id] and [connection]), and the trace of the calls to [close()], oldest
    first. *)
Record manager := {
  connections : gmap uuid peer;
  peers : nat;
  handlers : list (uuid * peer);
  closes : list peer
}.

Definition start : manager :=
  {| connections := ∅; peers := O; handlers := []; closes := [] |}.

Section WithUuid.

(** [uuid.UUID(s)]: the value, or [None] when it raises [ValueError]. *)
Variable parse_uuid : string → option uuid.

(** The three awaited transport calls at the end of [offer]; [answer] is
    the local description they produce, [None] when one of them raises. *)
Definition negotiate (m : manager) (id : uuid) (answer : option RTCSessionDescription)
    : response * manager :=
  match answer with
  | Some desc => (Answer desc id, m)
  | None => (Failure NegotiationError, m)
  end.

(** [async def offer(request)]. [fresh] is what [uuid.uuid4()] returns if it
    is called. *)
Definition offer (m : manager) (req : payload) (fresh : uuid)
    (answer : option RTCSessionDescription) : response * manager :=
  match parse_request req with
  | None => (Failure BadRequest, m)
  | Some conn_req =>
      match info_id conn_req with
      | Some sid =>
          match parse_uuid sid with
          | None => (Failure ValueError, m)
          | Some id =>
              match connections m !! id with
              | None => (Failure KeyError, m)
              | Some _ => negotiate m id answer
              end
          end
      | None =>
          let connection := peers m in
          let m1 := {| connections := <[fresh := connection]> (connections m);
                       peers := S (peers m);
                       handlers := handlers m ++ [(fresh, connection)];
                       closes := closes m |} in
          negotiate m1 fresh answer
      end
  end.

(** [on_constate] when [connection.connectionState] is "failed":
    [await connection.close()], then [connections.pop(id)]. It runs only if
    it was registered. *)
Definition on_constate (id : uuid) (connection : peer) (m : manager) : manager :=
  if decide ((id, connection) ∈ handlers m)
  then {| connections := delete id (connections m); peers := peers m;
          handlers := handlers m; closes := closes m ++ [connection] |}
  else m.

(** [on_shutdown]: [close()] on every value of [connections], then
    [connections.clear()]. *)
Definition on_shutdown (m : manager) : manager :=
  {| connections := ∅; peers := peers m; handlers := handlers m;
     closes := closes m ++ (map_to_list (connections m)).*2 |}.

(** What reaches the manager. *)
Inductive request :=
| Offer (req : payload) (fresh : uuid) (answer : option RTCSessionDescription)
| ConnectionFailed (id : uuid) (connection : peer)
| Shutdown.

Definition serve (m : manager) (q : request) : manager :=
  match q with
  | Offer req fresh answer => (offer m req fresh answer).2
  | ConnectionFailed id connection => on_constate id connection m
  | Shutdown => on_shutdown m
  end.

Definition serve_all (qs : list request) (m : manager) : manager := foldl serve m qs.

End WithUuid.

(** The calls to [close()] made between two states. *)
Definition closes_since (old new : manager) : list peer :=
  drop (length (closes old)) (closes new).

(** No connection object is registered under two ids, and every registered
    one has been created. *)
Definition well_formed (m : manager) : Prop :=
  (∀ i j p, connections m !! i = Some p → connections m !! j = Some p → i = j) ∧
  (∀ i p, connections m !! i = Some p → (p < peers m)%nat).

(** A reading of the canonical text of a UUID, 32 hexadecimal digits with
    optional hyphens, to instantiate [parse_uuid] in examples. *)
Definition hex_digit (a : Ascii.ascii) : option N :=
  let n := Ascii.N_of_ascii a in
  if ((48 <=? n) && (n <=? 57))%N then Some (n - 48)%N
  else if ((97 <=? n) && (n <=? 102))%N then Some (n - 87)%N
  else if ((65 <=? n) && (n <=? 70))%N then Some (n - 55)%N
  else None.

Fixpoint hex_value (s : string) (digits : nat) (acc : N) : option (nat * N) :=
  match s with
  | EmptyString => Some (digits, acc)
  | String a s' =>
      if Ascii.eqb a (Ascii.ascii_of_N 45) then hex_value s' digits acc
      else match hex_digit a with
           | Some d => hex_value s' (S digits) (16 * acc + d)%N
           | None => None
           end
  end.

Definition hex_uuid (s : string) : option uuid :=
  match hex_value s O 0%N with
  | Some (32%nat, v) => Some v
  | _ => None
  end.

(** A first offer, [{"sdp": "v=0", "type": "offer"}], and the same offer
    sent again under a session id. *)
Definition first_offer : payload :=
  Object (<["type" := JString "offer"]> {["sdp" := JString "v=0"]}).

Definition offer_for (sid : string) : payload :=
  Object (<["id" := JString sid]>
          (<["type" := JString "offer"]> {["sdp" := JString "v=0"]})).

Definition an_answer : RTCSessionDescription := {| sdp := "v=0"; type := "answer" |}.

End Signaling.

(* ===================================================================== *)
(** ** Frame generator ([gen_frame], [frame_from_arrays]) *)
(* ===================================================================== *)

Module FrameGen.

(** [sys.byteorder]: the dtypes "H" and "d" are in native byte order. *)
Inductive byteorder := Little | Big.

(** The [width] low bytes of [v], least significant first. *)
Fixpoint le_bytes (width : nat) (v : Z) : list Z :=
  match width with
  | O => []
  | S w => v mod 256 :: le_bytes w (v / 256)
  end.

(** The value of bytes given least significant first. *)
Fixpoint le_value (bs : list Z) : Z :=
  match bs with
  | [] => 0
  | b :: bs' => b + 256 * le_value bs'
  end.

(** [.tobytes()] of one element of [width] bytes holding the bits [v]. *)
Definition tobytes (order : byteorder) (width : nat) (v : Z) : list Z :=
  match order with
  | Little => le_bytes width v
  | Big => rev (le_bytes width v)
  end.

Definition frombytes (order : byteorder) (bs : list Z) : Z :=
  match order with
  | Little => le_value bs
  | Big => le_value (rev bs)
  end.

(** [np.array(frame_n).astype("H")]. A Python integer that fits a signed or
    an unsigned 64-bit integer makes an integer array, and the cast to an
    unsigned 16-bit integer keeps its low 16 bits. Any other integer makes
    an array of objects, whose cast raises [OverflowError]: [None]. *)
Definition astype_H (frame_n : Z) : option Z :=
  if (- 2 ^ 63 <=? frame_n) && (frame_n <? 2 ^ 64)
  then Some (frame_n mod 2 ^ 16)
  else None.

(** The IEEE 754 binary64 bit pattern of a float: sign, 11 bits of biased
    exponent, 52 bits of fraction. A [float] of Rocq holds one NaN, without
    sign or payload, where numpy writes the bits of the NaN it holds; the
    quiet NaN stands for all of them, and the pattern is exact on every
    other value. *)
Definition float_bits (x : float) : Z :=
  match Prim2SF x with
  | S754_zero s => if s then 2 ^ 63 else 0
  | S754_infinity s => (if s then 2 ^ 63 else 0) + 2047 * 2 ^ 52
  | S754_nan => 2047 * 2 ^ 52 + 2 ^ 51
  | S754_finite s m e =>
      (if s then 2 ^ 63 else 0) +
      (if Z.pos m <? 2 ^ 52 then Z.pos m
       else (e + 1075) * 2 ^ 52 + (Z.pos m - 2 ^ 52))
  end.

(** [.astype("d").tobytes()] of one element. *)
Definition float64_bytes (order : byteorder) (x : float) : list Z :=
  tobytes order 8 (float_bits x).

(** The value of a binary64 bit pattern: the reading a receiver makes of
    8 bytes of the payload. *)
Definition bits_spec_float (v : Z) : spec_float :=
  let s := 2 ^ 63 <=? v in
  let biased := (v / 2 ^ 52) mod 2048 in
  let fraction := v mod 2 ^ 52 in
  if biased =? 0 then
    match fraction with
    | Z.pos m => S754_finite s m (-1074)
    | _ => S754_zero s
    end
  else if biased =? 2047 then
    (if fraction =? 0 then S754_infinity s else S754_nan)
  else
    match fraction + 2 ^ 52 with
    | Z.pos m => S754_finite s m (biased - 1075)
    | _ => S754_nan
    end.

Definition float_of_bits (v : Z) : float := SF2Prim (bits_spec_float v).

Definition float64_frombytes (order : byteorder) (bs : list Z) : float :=
  float_of_bits (frombytes order bs).

(** *** Python and numpy arithmetic on binary64 *)

(** [float(z)]: the binary64 value nearest to [z], ties to even. Below
    [2**63] in magnitude the conversion of the machine does it; beyond, the
    rounding of the specification of binary64, which is the same rounding.
    Past the largest binary64 value it gives an infinity where Python raises
    [OverflowError]; no index that [gen_frame] accepts is that large. *)
Definition of_int (z : Z) : float :=
  if Z.abs z <? 9223372036854775808 then
    (if z <? 0 then PrimFloat.opp (PrimFloat.of_uint63 (Uint63.of_Z (- z)))
     else PrimFloat.of_uint63 (Uint63.of_Z z))
  else SF2Prim (SpecFloat.binary_normalize prec emax z 0 false).

(** [a / b] on two Python integers is the correctly rounded quotient. With
    the divisor of this program, 64, dividing the rounded [a] is exact, so
    the quotient of the conversions is that value. *)
Definition truediv (a b : Z) : float := PrimFloat.div (of_int a) (of_int b).

(** C's [fmod(x, 1.0)]: [x] minus its integer part, exactly, with the sign
    of [x]. For [x = m * 2^e] with [e < 0] these are the [-e] low bits of
    the mantissa [m]. *)
Definition fmod1 (x : float) : float :=
  match Prim2SF x with
  | S754_finite s m e =>
      if 0 <=? e then (if s then PrimFloat.neg_zero else PrimFloat.zero)
      else match Z.land (Z.pos m) (Z.ones (- e)) with
           | Z.pos r => SF2Prim (S754_finite s r e)
           | _ => if s then PrimFloat.neg_zero else PrimFloat.zero
           end
  | S754_zero _ => x
  | S754_infinity _ | S754_nan => PrimFloat.nan
  end.

(** [x % 1] on a Python float ([float_rem]): [fmod], moved into the sign of
    the divisor, and [+0.0] when it is zero. *)
Definition mod1 (x : float) : float :=
  let m := fmod1 x in
  if PrimFloat.eqb m PrimFloat.zero then PrimFloat.zero
  else if PrimFloat.ltb m PrimFloat.zero then PrimFloat.add m PrimFloat.one
  else m.

(** [np.pi] *)
Definition np_pi : float := 0x1.921fb54442d18p+1%float.

(** [np.linspace(start, stop, num)], endpoint included: [k * step + start]
    with [step = (stop - start) / (num - 1)], and [stop] itself at the end. *)
Definition np_linspace (start stop : float) (num : nat) : list float :=
  let step := PrimFloat.div (PrimFloat.sub stop start) (of_int (Z.of_nat (num - 1))) in
  (λ k : nat, if (k =? num - 1)%nat then stop
              else PrimFloat.add (PrimFloat.mul (of_int (Z.of_nat k)) step) start)
  <$> seq 0 num.

(** [np.diff(t)]: [t[k+1] - t[k]]. *)
Fixpoint np_diff (t : list float) : list float :=
  match t with
  | a :: (b :: _) as t' => PrimFloat.sub b a :: np_diff t'
  | _ => []
  end.

(** [(frame_n / 64) % 1 + 0.5] *)
Definition amplitude (frame_n : Z) : float :=
  PrimFloat.add (mod1 (truediv frame_n 64)) 0.5%float.

Section WithNumpy.

Variable order : byteorder.

(** [np.sin] on one element. *)
Variable np_sin : float → float.

(** [np.transpose([dt, y]).astype("d").tobytes()]: the rows of the
    transposed array, which are the pairs [(dt[k], y[k])]. *)
Definition pairs_bytes (dt y : list float) : list Z :=
  flat_map (λ p : float * float, float64_bytes order p.1 ++ float64_bytes order p.2)
           (zip dt y).

(** [def frame_from_arrays(dt, y, frame_n)]. The prefix is evaluated first
    and raises on an index out of range; [np.transpose([dt, y])] needs two
    rows of one length. [None] stands for either exception. *)
Definition frame_from_arrays (dt y : list float) (frame_n : Z) : option (list Z) :=
  match astype_H frame_n with
  | Some h =>
      if (length dt =? length y)%nat
      then Some (tobytes order 2 h ++ pairs_bytes dt y)
      else None
  | None => None
  end.

(** [t = np.linspace(-1, 1, 1000)] *)
Definition time_axis : list float := np_linspace (of_int (-1)) (of_int 1) 1000.

(** [t * 2 * np.pi * freq] on one element, with [freq = 10] *)
Definition phase (x : float) : float :=
  let freq := 10 in
  PrimFloat.mul (PrimFloat.mul (PrimFloat.mul x (of_int 2)) np_pi) (of_int freq).

(** [y = amplitude * np.sin(t * 2 * np.pi * freq)] *)
Definition samples (frame_n : Z) : list float :=
  (λ x, PrimFloat.mul (amplitude frame_n) (np_sin (phase x))) <$> time_axis.

(** [dt = np.diff(t); dt = np.append(dt, [dt[-1]])]; [None] stands for the
    [IndexError] of [dt[-1]] on an empty array. *)
Definition deltas : option (list float) :=
  let dt := np_diff time_axis in
  match last dt with
  | Some d => Some (dt ++ [d])
  | None => None
  end.

(** [def gen_frame(frame_n)] *)
Definition gen_frame (frame_n : Z) : option (list Z) :=
  match deltas with
  | Some dt => frame_from_arrays dt (samples frame_n) frame_n
  | None => None
  end.

End WithNumpy.

(** Every index from [start] on, [len] of them, passes the test. *)
Fixpoint all_from (test : Z → bool) (start : Z) (len : nat) : bool :=
  match len with
  | O => true
  | S len' => test start && all_from test (start + 1) len'
  end.

End FrameGen.

(* ===================================================================== *)
(** ** Channel wiring ([handle_new_connection]) *)
(* ===================================================================== *)

Module Wiring.
Import FrameClock Broadcast.

(** What a data channel carries in one message: [str | bytes]. *)
Inductive message_data :=
| Text (s : string)
| Binary (b : list Z).

(** The broadcast loop with its registry, the channels on which
    [on_datachannel] registered the [message] handler (one entry per
    registration), and the trace of the calls [channel.send(data)] made by
    these handlers, oldest first. *)
Record hub := {
  loop : system;
  on_message : list channel;
  echoed : list (channel * message_data)
}.

Definition hub_start : hub := {| loop := boot; on_message := []; echoed := [] |}.

(** [async def on_datachannel(channel)], for a channel whose
    [channel.label] is [label]: [match channel.label] with the cases
    "webscope_data" and "echo", and no default case. *)
Definition on_datachannel (label : string) (c : channel) (h : hub) : hub :=
  if decide (label = "webscope_data")
  then {| loop := env_add c (loop h); on_message := on_message h; echoed := echoed h |}
  else if decide (label = "echo")
  then {| loop := loop h; on_message := on_message h ++ [c]; echoed := echoed h |}
  else h.

(** The transport emits "message" with [data] on channel [c]: every
    [message] handler registered on [c] runs [channel.send(data)]. *)
Definition on_message_event (c : channel) (data : message_data) (h : hub) : hub :=
  {| loop := loop h; on_message := on_message h;
     echoed := echoed h ++ ((λ c', (c', data)) <$> filter (λ c', c' = c) (on_message h)) |}.

(** What reaches the wiring, seen at the cycle boundaries of the loop. *)
Inductive hub_event :=
| Opened (label : string) (c : channel)          (* "datachannel" on a connection *)
| Message (c : channel) (data : message_data)    (* "message" on a channel *)
| Signal (c : channel) (name : string)           (* any other event of a channel *)
| Cycle (w : world).                             (* one cycle of [send_frames] *)

Definition hub_apply (h : hub) (e : hub_event) : hub :=
  match e with
  | Opened label c => on_datachannel label c h
  | Message c data => on_message_event c data h
  | Signal c name =>
      {| loop := env_emit c name (loop h); on_message := on_message h; echoed := echoed h |}
  | Cycle w =>
      {| loop := tick w (loop h); on_message := on_message h; echoed := echoed h |}
  end.

Definition hub_run (es : list hub_event) (h : hub) : hub := foldl hub_apply h es.

(** The events of the broadcast loop among those of the wiring. *)
Definition to_loop_event (e : hub_event) : list event :=
  match e with
  | Opened label c => if decide (label = "webscope_data") then [AddChannel c] else []
  | Message _ _ => []
  | Signal c name => [Emit c name]
  | Cycle w => [Tick w]
  end.

End Wiring.

(* ===================================================================== *)
(** ** The loop over plain callables ([send_frames_forever]) *)
(* ===================================================================== *)

Module Forever.
Import FrameClock.

(** The state of [send_frames_forever]: the index the clock yields next,
    whether the coroutine is still running (an exception raised by a
    callable ends it: nothing catches it), and two traces, oldest first:
    the arguments of [gen_frame] and the calls [send(frame)], each by the
    position of the callable in [sends] and the frame index. *)
Record state := {
  frame_n : Z;
  running : bool;
  gen_calls : list Z;
  calls : list (nat * Z)
}.

Definition start : state :=
  {| frame_n := periodic_frames_start; running := true; gen_calls := []; calls := [] |}.

(** [for send in sends: send(frame)] from position [k] on; [returns j]
    tells whether the callable at position [j] returns this time. The
    result is the trace and whether the loop got to the end. *)
Fixpoint call_each (returns : nat → bool) (n : Z) (k count : nat)
    (trace : list (nat * Z)) : list (nat * Z) * bool :=
  match count with
  | O => (trace, true)
  | S count' =>
      if returns k
      then call_each returns n (S k) count' (trace ++ [(k, n)])
      else (trace ++ [(k, n)], false)
  end.

(** One iteration of the [async for], with [len(sends) = count]. *)
Definition iteration (count : nat) (returns : nat → bool) (st : state) : state :=
  if running st then
    if decide (count ≤ 0)%nat
    then {| frame_n := next_frame_n (frame_n st); running := true;
            gen_calls := gen_calls st; calls := calls st |}
    else
      let result := call_each returns (frame_n st) 0 count (calls st) in
      {| frame_n := if result.2 then next_frame_n (frame_n st) else frame_n st;
         running := result.2;
         gen_calls := gen_calls st ++ [frame_n st];
         calls := result.1 |}
  else st.

(** The iterations in turn, one [returns] per iteration. *)
Definition iterations (count : nat) (rs : list (nat → bool)) (st : state) : state :=
  foldl (λ st returns, iteration count returns st) st rs.

(** The frames one callable was called with. *)
Definition frames_of (k : nat) (trace : list (nat * Z)) : list Z :=
  snd <$> filter (λ p, p.1 = k) trace.

End Forever.

(* ===================================================================== *)
(** ** Pacing of the clock ([periodic_frames]) *)
(* ===================================================================== *)

Module Pacing.

(** [sleep_for = interval - time_taken] and the argument of
    [asyncio.sleep]: [sleep_for if sleep_for > 0 else 0]. *)
Definition sleep_delay (interval time_taken : float) : float :=
  let sleep_for := PrimFloat.sub interval time_taken in
  if PrimFloat.ltb PrimFloat.zero sleep_for then sleep_for else PrimFloat.zero.

End Pacing.

(* ===================================================================== *)
(** * Properties *)
(* ===================================================================== *)

(** ** Frame clock *)

Section FrameClockFacts.
Import FrameClock Broadcast.

Lemma n_of_unique_frames_eq : n_of_unique_frames = 65536.
Proof. reflexivity. Qed.

Lemma next_frame_n_range (i : Z) : 0 ≤ next_frame_n i < 65536.
Proof.
  unfold next_frame_n. rewrite n_of_unique_frames_eq.
  apply Z.mod_pos_bound. lia.
Qed.

Lemma periodic_frames_closed (k : nat) :
  periodic_frames k = Z.of_nat k mod 65536.
Proof.
  induction k as [|k IH].
  - reflexivity.
  - cbn [periodic_frames]. rewrite IH. unfold next_frame_n.
    rewrite n_of_unique_frames_eq, Nat2Z.inj_succ.
    rewrite Zplus_mod_idemp_l. f_equal; lia.
Qed.

Lemma periodic_frames_range (k : nat) : 0 ≤ periodic_frames k < 65536.
Proof. rewrite periodic_frames_closed. apply Z.mod_pos_bound. lia. Qed.

Lemma periodic_frames_iter (k : nat) :
  periodic_frames k = Nat.iter k next_frame_n periodic_frames_start.
Proof. induction k as [|k IH]; [done|]. cbn [periodic_frames]. by rewrite IH. Qed.

(** The loop's index after a run: one [next_frame_n] per cycle, whatever
    the other thread did in between. *)
Lemma run_frame_n (es : list event) : ∀ s,
  frame_n (run es s) = Nat.iter (ticks es) next_frame_n (frame_n s).
Proof.
  induction es as [|e es IH]; intros s; [done|].
  change (run (e :: es) s) with (run es (apply_event s e)). rewrite IH.
  destruct e; cbn [ticks apply_event tick env_add env_emit frame_n]; [|done|done].
  by rewrite Nat.iter_succ_r.
Qed.

(** C7: the successor of every frame index [i] is [(i+1) mod 65536]. The
    clock starts at 0 and every resumption replaces its index by the
    successor, so tick [k] yields [k mod 65536]: the tick [k + 65536] yields
    what tick [k] yielded, and no two ticks closer than that yield the same
    index. The index the broadcast loop holds after a run is the one the
    clock yields after as many ticks as the run has cycles. *)
Theorem next_frame_n_cycles :
  (∀ i : Z, next_frame_n i = (i + 1) mod 65536) ∧
  periodic_frames 0 = 0 ∧
  (∀ k : nat, periodic_frames (S k) = next_frame_n (periodic_frames k)) ∧
  (∀ k : nat, periodic_frames k = Z.of_nat k mod 65536) ∧
  (∀ k : nat, periodic_frames (k + Z.to_nat 65536) = periodic_frames k) ∧
  (∀ k d : nat, (0 < d)%nat → Z.of_nat d < 65536 →
                periodic_frames (k + d) ≠ periodic_frames k) ∧
  (∀ es : list event, frame_n (run es boot) = periodic_frames (ticks es)) ∧
  (∀ (w : world) (s : system), frame_n (tick w s) = next_frame_n (frame_n s)).
Proof.
  split; [intros i; reflexivity|].
  split; [reflexivity|].
  split; [intros k; reflexivity|].
  split; [apply periodic_frames_closed|].
  split; [|split; [|split]].
  - intros k. rewrite !periodic_frames_closed.
    rewrite Nat2Z.inj_add, Z2Nat.id by lia.
    replace (Z.of_nat k + 65536) with (Z.of_nat k + 1 * 65536) by lia.
    apply Z_mod_plus_full.
  - intros k d Hd Hlt. rewrite !periodic_frames_closed, Nat2Z.inj_add. intros Heq.
    assert (Hdiv : (Z.of_nat k + Z.of_nat d - Z.of_nat k) mod 65536 = 0).
    { rewrite Zminus_mod, Heq, Z.sub_diag. reflexivity. }
    replace (Z.of_nat k + Z.of_nat d - Z.of_nat k) with (Z.of_nat d) in Hdiv by lia.
    rewrite Z.mod_small in Hdiv by lia. lia.
  - intros es. rewrite run_frame_n, periodic_frames_iter. reflexivity.
  - intros w s. reflexivity.
Qed.

Example next_frame_n_wraps : next_frame_n 65535 = 0 ∧ next_frame_n 0 = 1.
Proof. split; reflexivity. Qed.

End FrameClockFacts.

(** ** Channel registry and broadcast loop *)

Section BroadcastFacts.
Import FrameClock Broadcast.
Implicit Types (r : registry) (c : channel) (w : world) (n : Z) (s : system).

(** Projections of the updated registry. *)
Ltac reg_simpl :=
  unfold set_channels, set_to_be_removed, on, log_gen, log_send in *;
  cbn [channels to_be_removed listeners gen_calls sent] in *.

Lemma filter_ext_elem_of {A} (P Q : A → Prop)
    `{!∀ x, Decision (P x), !∀ x, Decision (Q x)} (l : list A) :
  (∀ x, x ∈ l → P x ↔ Q x) → filter P l = filter Q l.
Proof.
  induction l as [|a l IH]; intros Hpq; [done|].
  rewrite !filter_cons.
  rewrite IH by (intros x Hx; apply Hpq; by right).
  destruct (decide (P a)) as [Hp|Hp], (decide (Q a)) as [Hq|Hq]; try done.
  - exfalso. apply Hq, Hpq; [by left | done].
  - exfalso. apply Hp, Hpq; [by left | done].
Qed.

Lemma filter_not_queued (X : gset channel) (l : list channel) :
  X = ∅ → filter (λ x, x ∉ X) l = l.
Proof.
  intros ->. induction l as [|x l IH]; [done|].
  rewrite filter_cons, decide_True by set_solver. by rewrite IH.
Qed.

Lemma list_to_set_filter_elements (P : channel → Prop) `{!∀ x, Decision (P x)}
    (X : gset channel) :
  list_to_set (filter P (elements X)) =@{gset channel} filter P X.
Proof.
  apply set_eq. intros x.
  rewrite elem_of_list_to_set, list_elem_of_filter, elem_of_elements, elem_of_filter.
  done.
Qed.

(** One visit. *)
Lemma deliver_spec w n r c :
  channels (deliver w n r c) = channels r ∧
  listeners (deliver w n r c) = listeners r ∧
  gen_calls (deliver w n r c) = gen_calls r ∧
  sent (deliver w n r c) =
    sent r ++ (if decide (c ∈ to_be_removed r) then [] else [attempt w n c]) ∧
  to_be_removed (deliver w n r c) =
    to_be_removed r ∪ (if decide (dropped w c) then {[c]} else ∅).
Proof.
  unfold deliver, attempt.
  destruct (decide (c ∈ to_be_removed r)) as [Hin|Hin].
  { rewrite app_nil_r. repeat split. destruct (decide (dropped w c)); set_solver. }
  destruct (decide (dropped w c)) as [[Hs Ho]|Hno].
  - rewrite Hs, decide_True by done. reg_simpl. repeat split; set_solver.
  - unfold dropped in Hno.
    destruct (send_result (w c)) eqn:Hs; reg_simpl.
    + repeat split; set_solver.
    + rewrite decide_False by (intros ?; apply Hno; done).
      reg_simpl. repeat split; set_solver.
Qed.

(** Visiting the channels of a duplicate-free list: each one that is not
    queued is sent to once, in list order, and the dropped ones are queued. *)
Lemma deliver_all w n (l : list channel) r :
  NoDup l →
  let r' := foldl (deliver w n) r l in
  channels r' = channels r ∧ listeners r' = listeners r ∧
  gen_calls r' = gen_calls r ∧
  sent r' = sent r ++ (attempt w n <$> filter (λ x, x ∉ to_be_removed r) l) ∧
  to_be_removed r' = to_be_removed r ∪ list_to_set (filter (dropped w) l).
Proof.
  revert r. induction l as [|c l IH]; intros r Hnd; cbn zeta.
  - cbn. rewrite app_nil_r. repeat split; set_solver.
  - apply NoDup_cons in Hnd as [Hc Hnd].
    cbn [foldl].
    destruct (deliver_spec w n r c) as (Hch & Hls & Hg & Hsent & Htbr).
    destruct (IH (deliver w n r c) Hnd) as (Hch' & Hls' & Hg' & Hsent' & Htbr').
    rewrite Hch', Hls', Hg', Hsent', Htbr', Hch, Hls, Hg, Hsent.
    repeat split.
    + rewrite <- app_assoc. f_equal.
      rewrite filter_cons.
      assert (Hflt : filter (λ x, x ∉ to_be_removed (deliver w n r c)) l
                     = filter (λ x, x ∉ to_be_removed r) l).
      { apply filter_ext_elem_of. intros x Hx. rewrite Htbr.
        destruct (decide (dropped w c)); set_solver. }
      rewrite Hflt.
      destruct (decide (c ∈ to_be_removed r)).
      * rewrite decide_False by tauto. done.
      * rewrite decide_True by done. done.
    + rewrite Htbr, filter_cons. destruct (decide (dropped w c)); set_solver.
Qed.

(** The effect of one whole cycle on every component of the registry. *)
Lemma cycle_spec w n r :
  let act := channels r ∖ to_be_removed r in
  channels (cycle w n r) = act ∧
  listeners (cycle w n r) = listeners r ∧
  to_be_removed (cycle w n r) = filter (dropped w) act ∧
  sent (cycle w n r) = sent r ++ (attempt w n <$> elements act) ∧
  gen_calls (cycle w n r) = gen_calls r ++ (if decide (act = ∅) then [] else [n]).
Proof.
  cbn zeta. unfold cycle. reg_simpl.
  destruct (decide (size (channels r ∖ to_be_removed r) ≤ 0)%nat) as [Hsz|Hsz].
  - assert (He : channels r ∖ to_be_removed r = ∅).
    { apply leibniz_equiv, size_empty_iff. lia. }
    reg_simpl. rewrite He, elements_empty.
    assert (filter (dropped w) (∅ : gset channel) = ∅) as -> by set_solver.
    rewrite decide_True by done.
    cbn. rewrite !app_nil_r. done.
  - assert (Hne : channels r ∖ to_be_removed r ≠ ∅).
    { intros He. rewrite He, size_empty in Hsz. lia. }
    rewrite decide_False by done.
    pose proof (deliver_all w n (elements (channels r ∖ to_be_removed r))
      (log_gen n (set_channels (channels r ∖ to_be_removed r) (set_to_be_removed ∅ r))))
      as H.
    rewrite (filter_not_queued _ _ eq_refl) in H.
    reg_simpl. destruct H as (Hch & Hls & Hg & Hsent & Htbr).
    { apply NoDup_elements. }
    rewrite Hch, Hls, Hg, Hsent, Htbr, list_to_set_filter_elements.
    repeat split. set_solver.
Qed.

(** Running the handlers of one event. *)
Lemma fire_all c ev (l : list (channel * string)) r :
  let r' := foldl (fire c ev) r l in
  channels r' = channels r ∧ listeners r' = listeners r ∧
  gen_calls r' = gen_calls r ∧ sent r' = sent r ∧
  to_be_removed r' = to_be_removed r ∪ (if decide ((c, ev) ∈ l) then {[c]} else ∅).
Proof.
  revert r. induction l as [|a l IH]; intros r; cbn zeta.
  - cbn. rewrite decide_False by apply not_elem_of_nil. repeat split; set_solver.
  - cbn [foldl].
    destruct (IH (fire c ev r a)) as (Hch & Hls & Hg & Hsent & Htbr).
    rewrite Hch, Hls, Hg, Hsent, Htbr. clear IH Hch Hls Hg Hsent Htbr.
    unfold fire. destruct (decide (a = (c, ev))) as [->|Hne]; reg_simpl.
    + rewrite (decide_True (P := (c, ev) ∈ (c, ev) :: l)) by left.
      repeat split. destruct (decide ((c, ev) ∈ l)); set_solver.
    + repeat split.
      destruct (decide ((c, ev) ∈ l)) as [Hin|Hin].
      * rewrite decide_True by (by right). done.
      * rewrite decide_False; [done|].
        intros [?|?]%elem_of_cons; congruence.
Qed.

Lemma emit_spec c ev r :
  channels (emit c ev r) = channels r ∧ listeners (emit c ev r) = listeners r ∧
  gen_calls (emit c ev r) = gen_calls r ∧ sent (emit c ev r) = sent r ∧
  to_be_removed (emit c ev r) =
    to_be_removed r ∪ (if decide ((c, ev) ∈ listeners r) then {[c]} else ∅).
Proof. apply fire_all. Qed.

Lemma add_channel_spec c r :
  channels (add_channel c r) = {[c]} ∪ channels r ∧
  listeners (add_channel c r) = listeners r ++ [(c, "closing"); (c, "closedkfjsdk")] ∧
  gen_calls (add_channel c r) = gen_calls r ∧ sent (add_channel c r) = sent r ∧
  to_be_removed (add_channel c r) = to_be_removed r.
Proof.
  unfold add_channel. reg_simpl. rewrite <- app_assoc. done.
Qed.

(** Only [add_channel] registers handlers, and only on two event names. *)
Lemma adds_listeners (cs : list channel) :
  to_be_removed (foldr add_channel initial cs) = ∅ ∧
  ∀ c ev, (c, ev) ∈ listeners (foldr add_channel initial cs) →
          ev = "closing" ∨ ev = "closedkfjsdk".
Proof.
  induction cs as [|c0 cs [IHt IHl]]; cbn [foldr].
  - split; [done|]. intros c ev Hin. by apply elem_of_nil in Hin.
  - destruct (add_channel_spec c0 (foldr add_channel initial cs))
      as (_ & Hls & _ & _ & Htbr).
    rewrite Htbr, Hls. split; [done|].
    intros c ev [Hin|Hin]%elem_of_app; [by eapply IHl|].
    set_solver.
Qed.

(** C1: what [add_channel c] does on a registry built by earlier calls: [c]
    enters the active set at once and the "closing" event queues it, but
    the second handler listens on "closedkfjsdk", so the transport's "closed"
    event queues nothing. *)
Theorem closed_event_is_not_observed (cs : list channel) (c : channel) :
  let r := add_channel c (foldr add_channel initial cs) in
  c ∈ channels r ∧
  c ∈ to_be_removed (emit c "closing" r) ∧
  to_be_removed (emit c "closed" r) = ∅ ∧
  c ∈ to_be_removed (emit c "closedkfjsdk" r).
Proof.
  cbn zeta.
  destruct (adds_listeners (c :: cs)) as [Ht Hl]. cbn [foldr] in Ht, Hl.
  destruct (add_channel_spec c (foldr add_channel initial cs))
    as (Hch & Hls & _ & _ & _).
  split; [rewrite Hch; set_solver|].
  split; [|split].
  - destruct (emit_spec c "closing" (add_channel c (foldr add_channel initial cs)))
      as (_ & _ & _ & _ & ->).
    rewrite decide_True; [set_solver|]. rewrite Hls. set_solver.
  - destruct (emit_spec c "closed" (add_channel c (foldr add_channel initial cs)))
      as (_ & _ & _ & _ & ->).
    rewrite Ht, decide_False; [set_solver|].
    intros Hin. destruct (Hl _ _ Hin); discriminate.
  - destruct (emit_spec c "closedkfjsdk" (add_channel c (foldr add_channel initial cs)))
      as (_ & _ & _ & _ & ->).
    rewrite decide_True; [set_solver|]. rewrite Hls. set_solver.
Qed.

(** C8: a cycle whose active set is empty once the pending removals are
    applied calls neither [gen_frame] nor [send]: both traces, hence the call
    count of the generator, stay as they were. The clock still advances. *)
Theorem empty_cycle_generates_nothing w s :
  channels (reg s) ∖ to_be_removed (reg s) = ∅ →
  gen_calls (reg (tick w s)) = gen_calls (reg s) ∧
  length (gen_calls (reg (tick w s))) = length (gen_calls (reg s)) ∧
  sent (reg (tick w s)) = sent (reg s) ∧
  frame_n (tick w s) = next_frame_n (frame_n s).
Proof.
  intros Hempty. unfold tick. cbn [reg frame_n].
  destruct (cycle_spec w (frame_n s) (reg s)) as (_ & _ & _ & Hsent & Hgen).
  rewrite Hsent, Hgen, Hempty, elements_empty.
  rewrite decide_True by done. cbn. rewrite !app_nil_r. done.
Qed.

(** A registry whose only channel has announced that it is closing. *)
Lemma empty_cycle_generates_nothing_witness :
  let w := all_open in
  let s := env_emit 1 "closing" (env_add 1 boot) in
  channels (reg s) = {[1%nat]} ∧
  gen_calls (reg (tick w s)) = gen_calls (reg s) ∧
  length (gen_calls (reg (tick w s))) = length (gen_calls (reg s)) ∧
  sent (reg (tick w s)) = sent (reg s) ∧
  frame_n (tick w s) = next_frame_n (frame_n s).
Proof.
  cbn zeta. split; [vm_compute; reflexivity|].
  apply empty_cycle_generates_nothing. vm_compute. reflexivity.
Defined.

(** *** Runs of events *)

Lemma run_cons e es s : run (e :: es) s = run es (apply_event s e).
Proof. reflexivity. Qed.

Lemma run_app es1 es2 s : run (es1 ++ es2) s = run es2 (run es1 s).
Proof. apply foldl_app. Qed.

Lemma sent_since_app (old new : registry) (l : list delivery) :
  sent new = sent old ++ l → sent_since old new = l.
Proof. intros H. unfold sent_since. rewrite H. apply drop_app_length. Qed.

Lemma deliveries_to_app c (l1 l2 : list delivery) :
  deliveries_to c (l1 ++ l2) = deliveries_to c l1 ++ deliveries_to c l2.
Proof. apply filter_app. Qed.

(** Among the sends of one cycle, those to [c]. *)
Lemma deliveries_to_attempts w n c (l : list channel) :
  NoDup l →
  deliveries_to c (attempt w n <$> l) = if decide (c ∈ l) then [attempt w n c] else [].
Proof.
  unfold deliveries_to. induction l as [|x l IH]; intros Hnd.
  - rewrite decide_False by apply not_elem_of_nil. done.
  - apply NoDup_cons in Hnd as [Hx Hnd]. rewrite fmap_cons, filter_cons.
    rewrite (IH Hnd). cbn [attempt d_chan].
    destruct (decide (x = c)) as [->|Hne].
    + rewrite (decide_True (P := c ∈ c :: l)) by left.
      rewrite decide_False by done. done.
    + destruct (decide (c ∈ l)) as [Hin|Hin].
      * rewrite decide_True by (by right). done.
      * rewrite decide_False; [done|]. intros [?|?]%elem_of_cons; congruence.
Qed.

(** What one event does to the trace of sends and to the two sets. *)
Lemma apply_event_sent s e :
  ∃ new, sent (reg (apply_event s e)) = sent (reg s) ++ new ∧
    match e with
    | Tick w =>
        new = attempt w (frame_n s) <$> elements (channels (reg s) ∖ to_be_removed (reg s))
    | _ => new = []
    end.
Proof.
  destruct e as [w|c|c ev]; cbn [apply_event tick env_add env_emit reg].
  - destruct (cycle_spec w (frame_n s) (reg s)) as (_ & _ & _ & Hsent & _). eauto.
  - destruct (add_channel_spec c (reg s)) as (_ & _ & _ & -> & _).
    exists []. by rewrite app_nil_r.
  - destruct (emit_spec c ev (reg s)) as (_ & _ & _ & -> & _).
    exists []. by rewrite app_nil_r.
Qed.

(** A channel that is out of the active set stays out, and is sent nothing,
    as long as it is not added again. *)
Lemma run_out c es : ∀ s,
  c ∉ channels (reg s) →
  Forall (λ e, ¬ adds c e) es →
  (c ∉ channels (reg (run es s))) ∧
  ∃ new, sent (reg (run es s)) = sent (reg s) ++ new ∧ deliveries_to c new = [].
Proof.
  induction es as [|e es IH]; intros s Hout Hes.
  - split; [done|]. exists []. by rewrite app_nil_r.
  - apply Forall_cons in Hes as [He Hes]. rewrite run_cons.
    destruct (apply_event_sent s e) as (new1 & Hsent1 & Hnew1).
    assert (Hout1 : c ∉ channels (reg (apply_event s e))).
    { destruct e as [w|c'|c' ev]; cbn [apply_event tick env_add env_emit reg].
      - destruct (cycle_spec w (frame_n s) (reg s)) as (-> & _). set_solver.
      - destruct (add_channel_spec c' (reg s)) as (-> & _). cbn in He. set_solver.
      - destruct (emit_spec c' ev (reg s)) as (-> & _). done. }
    assert (Hd1 : deliveries_to c new1 = []).
    { destruct e as [w|c'|c' ev]; subst new1; [|done|done].
      rewrite deliveries_to_attempts by apply NoDup_elements.
      rewrite decide_False; [done|]. set_solver. }
    destruct (IH _ Hout1 Hes) as (Hend & new2 & Hsent2 & Hd2).
    split; [done|]. exists (new1 ++ new2).
    rewrite Hsent2, Hsent1, <- app_assoc, deliveries_to_app, Hd1, Hd2. done.
Qed.

(** A channel queued for removal is sent nothing more, and is out of the
    active set from the next cycle on, as long as it is not added again. *)
Lemma run_queued c es : ∀ s,
  c ∈ to_be_removed (reg s) →
  Forall (λ e, ¬ adds c e) es →
  ((0 < ticks es)%nat → c ∉ channels (reg (run es s))) ∧
  ∃ new, sent (reg (run es s)) = sent (reg s) ++ new ∧ deliveries_to c new = [].
Proof.
  induction es as [|e es IH]; intros s Hq Hes.
  - split; [cbn; lia|]. exists []. by rewrite app_nil_r.
  - pose proof Hes as Hes0.
    apply Forall_cons in Hes as [He Hes]. rewrite run_cons.
    destruct (apply_event_sent s e) as (new1 & Hsent1 & Hnew1).
    destruct e as [w|c'|c' ev].
    + assert (Hout1 : c ∉ channels (reg (apply_event s (Tick w)))).
      { cbn [apply_event tick reg].
        destruct (cycle_spec w (frame_n s) (reg s)) as (-> & _). set_solver. }
      destruct (run_out c es _ Hout1 Hes) as (Hend & new2 & Hsent2 & Hd2).
      split; [done|]. exists (new1 ++ new2).
      rewrite Hsent2, Hsent1, <- app_assoc, deliveries_to_app, Hd2. subst new1.
      rewrite deliveries_to_attempts by apply NoDup_elements.
      rewrite decide_False; [done|]. set_solver.
    + assert (Hq1 : c ∈ to_be_removed (reg (apply_event s (AddChannel c')))).
      { cbn [apply_event env_add reg].
        destruct (add_channel_spec c' (reg s)) as (_ & _ & _ & _ & ->). done. }
      destruct (IH _ Hq1 Hes) as (Hend & new2 & Hsent2 & Hd2).
      split; [done|]. exists new2.
      rewrite Hsent2, Hsent1. subst new1. by rewrite app_nil_r.
    + assert (Hq1 : c ∈ to_be_removed (reg (apply_event s (Emit c' ev)))).
      { cbn [apply_event env_emit reg].
        destruct (emit_spec c' ev (reg s)) as (_ & _ & _ & _ & ->). set_solver. }
      destruct (IH _ Hq1 Hes) as (Hend & new2 & Hsent2 & Hd2).
      split; [done|]. exists new2.
      rewrite Hsent2, Hsent1. subst new1. by rewrite app_nil_r.
Qed.

(** C6: a channel of the active set whose [send] raises [InvalidStateError]
    during a cycle. The cycle goes on: every active channel, the failing one
    included, is sent the frame exactly once. If the channel is observed not
    open, it is still in the active set at the end of this cycle and queued;
    from then on it is sent nothing, and after the next cycle it is out of the
    active set, whatever else happens short of adding it again. *)
Theorem invalid_state_channel_is_pruned w n r c :
  c ∈ channels r → c ∉ to_be_removed r →
  send_result (w c) = InvalidStateError →
  let r1 := cycle w n r in
  (∀ c', c' ∈ channels r → c' ∉ to_be_removed r →
         deliveries_to c' (sent_since r r1) = [attempt w n c']) ∧
  (readyState (w c) ≠ Open →
     c ∈ channels r1 ∧ c ∈ to_be_removed r1 ∧
     ∀ s es, reg s = r1 → Forall (λ e, ¬ adds c e) es →
       deliveries_to c (sent_since r1 (reg (run es s))) = [] ∧
       ((0 < ticks es)%nat → c ∉ channels (reg (run es s)))).
Proof.
  intros Hin Hnq Hfail. cbn zeta.
  destruct (cycle_spec w n r) as (Hch & _ & Htbr & Hsent & _).
  split.
  - intros c' Hin' Hnq'. rewrite (sent_since_app _ _ _ Hsent).
    rewrite deliveries_to_attempts by apply NoDup_elements.
    rewrite decide_True; [done|]. set_solver.
  - intros Hclosed.
    assert (Hq : c ∈ to_be_removed (cycle w n r)).
    { rewrite Htbr. apply elem_of_filter. split; [by split | set_solver]. }
    split; [rewrite Hch; set_solver|]. split; [done|].
    intros s es Hs Hes. rewrite <- Hs in Hq.
    destruct (run_queued c es s Hq Hes) as (Hend & new & Hsent' & Hd).
    split; [|done]. rewrite <- Hs. by rewrite (sent_since_app _ _ _ Hsent').
Qed.

(** A failing channel next to a healthy one. *)
Lemma invalid_state_channel_is_pruned_witness :
  let w : world := λ c,
    if decide (c = 1)%nat
    then {| send_result := InvalidStateError; readyState := Closed |}
    else {| send_result := Sent; readyState := Open |} in
  let r := add_channel 1 (add_channel 2 initial) in
  let r1 := cycle w 0 r in
  (∀ c', c' ∈ channels r → c' ∉ to_be_removed r →
         deliveries_to c' (sent_since r r1) = [attempt w 0 c']) ∧
  (readyState (w 1%nat) ≠ Open →
     1%nat ∈ channels r1 ∧ 1%nat ∈ to_be_removed r1 ∧
     ∀ s es, reg s = r1 → Forall (λ e, ¬ adds 1 e) es →
       deliveries_to 1 (sent_since r1 (reg (run es s))) = [] ∧
       ((0 < ticks es)%nat → 1%nat ∉ channels (reg (run es s)))).
Proof.
  cbn zeta. apply invalid_state_channel_is_pruned.
  - vm_compute. reflexivity.
  - vm_compute. discriminate.
  - vm_compute. reflexivity.
Defined.

(** *** Order of the frames seen by one channel *)

Lemma frames_to_app c (l1 l2 : list delivery) :
  frames_to c (l1 ++ l2) = frames_to c l1 ++ frames_to c l2.
Proof. unfold frames_to. by rewrite deliveries_to_app, fmap_app. Qed.

(** A channel that stays in the active set is sent every frame of the run:
    the indices it sees are those the clock yields, one per cycle. *)
Lemma run_frames c es : ∀ s,
  stays c es s →
  ∃ new, sent (reg (run es s)) = sent (reg s) ++ new ∧
         frames_to c new = clock_from (frame_n s) (ticks es).
Proof.
  induction es as [|e es IH]; intros s Hst.
  - exists []. by rewrite app_nil_r.
  - destruct Hst as [Hin Hst]. rewrite run_cons.
    destruct (IH _ Hst) as (new2 & Hsent2 & Hf2).
    destruct (apply_event_sent s e) as (new1 & Hsent1 & Hnew1).
    exists (new1 ++ new2).
    rewrite Hsent2, Hsent1, <- app_assoc, frames_to_app, Hf2.
    split; [done|].
    destruct e as [w|c'|c' ev]; subst new1; cbn [ticks clock_from]; [|done|done].
    cbn [apply_event tick frame_n].
    assert (Hact : c ∈ channels (reg s) ∖ to_be_removed (reg s)).
    { destruct es; destruct Hst as [Hin1 _]; cbn [apply_event tick reg] in Hin1;
        by destruct (cycle_spec w (frame_n s) (reg s)) as (<- & _). }
    unfold frames_to. rewrite deliveries_to_attempts by apply NoDup_elements.
    rewrite decide_True by set_solver. done.
Qed.

Lemma clock_from_no_wrap k : ∀ n,
  0 ≤ n → n + Z.of_nat k ≤ 65536 →
  Forall (λ x, n ≤ x) (clock_from n k) ∧ StronglySorted Z.lt (clock_from n k).
Proof.
  induction k as [|k IH]; intros n Hn Hk; cbn [clock_from].
  - split; constructor.
  - destruct k as [|k'].
    { cbn. split; repeat constructor. lia. }
    assert (Hnext : next_frame_n n = n + 1).
    { unfold next_frame_n. rewrite n_of_unique_frames_eq.
      apply Z.mod_small. lia. }
    destruct (IH (next_frame_n n)) as [Hge Hsorted]; [lia | lia |].
    rewrite Hnext in Hge, Hsorted |- *.
    split.
    + constructor; [lia|]. eapply Forall_impl; [exact Hge|]. cbn. lia.
    + constructor; [done|]. eapply Forall_impl; [exact Hge|]. cbn. lia.
Qed.

Lemma filter_all {A} (P : A → Prop) `{!∀ x, Decision (P x)} (l : list A) :
  Forall P l → filter P l = l.
Proof.
  induction 1 as [|x l Hx Hl IH]; [done|].
  rewrite filter_cons, decide_True by done. by rewrite IH.
Qed.

(** C4, as the code has it: a channel that stays in the active set is sent the
    index the clock yields at each cycle, each one the successor modulo 65536
    of the one before ([clock_from]); when all these sends succeed, these are
    the frames delivered to it. The sequence is strictly increasing as long
    as the clock does not wrap in the run. *)
Theorem frames_follow_the_clock c es s :
  stays c es s →
  Forall (λ d, d_outcome d = Sent)
         (deliveries_to c (sent_since (reg s) (reg (run es s)))) →
  frames_delivered c (sent_since (reg s) (reg (run es s)))
    = clock_from (frame_n s) (ticks es) ∧
  (0 ≤ frame_n s → frame_n s + Z.of_nat (ticks es) ≤ 65536 →
   StronglySorted Z.lt (frames_delivered c (sent_since (reg s) (reg (run es s))))).
Proof.
  intros Hst Hok. unfold frames_delivered. rewrite (filter_all _ _ Hok).
  destruct (run_frames c es s Hst) as (new & Hsent & Hf).
  rewrite (sent_since_app _ _ _ Hsent). fold (frames_to c new). rewrite Hf.
  split; [done|]. intros H0 Hk. by apply clock_from_no_wrap.
Qed.

(** Cycles without any channel only move the clock. *)
Lemma run_idle w k : ∀ n,
  run (replicate k (Tick w)) {| frame_n := n; at_pc := Sleeping; reg := initial |}
  = {| frame_n := Nat.iter k next_frame_n n; at_pc := Sleeping; reg := initial |}.
Proof.
  induction k as [|k IH]; intros n; [done|].
  cbn [replicate]. rewrite run_cons. cbn [apply_event]. unfold tick. cbn [frame_n reg].
  assert (cycle w n initial = initial) as -> by reflexivity.
  rewrite IH. by rewrite Nat.iter_succ_r.
Qed.

Lemma iter_next_frame_n k : Nat.iter k next_frame_n 0 = periodic_frames k.
Proof. induction k as [|k IH]; [done|]. by rewrite Nat.iter_succ, IH. Qed.

(** C4 as stated fails at the wrap: a channel added after 65535 idle cycles
    is delivered frame 65535 and then frame 0. *)
Lemma frames_wrap_to_zero :
  ¬ (∀ c es0 es,
       let s := run es0 boot in
       stays c es s →
       Forall (λ d, d_outcome d = Sent)
              (deliveries_to c (sent_since (reg s) (reg (run es s)))) →
       StronglySorted Z.lt (frames_delivered c (sent_since (reg s) (reg (run es s))))).
Proof.
  intros Hclaim.
  specialize (Hclaim 0%nat
    (replicate (Z.to_nat 65535) (Tick all_open) ++ [AddChannel 0])
    [Tick all_open; Tick all_open]).
  cbn zeta in Hclaim. rewrite run_app in Hclaim. unfold boot in Hclaim.
  rewrite run_idle, iter_next_frame_n, periodic_frames_closed in Hclaim.
  rewrite Z2Nat.id in Hclaim by lia.
  change (65535 mod 65536) with 65535 in Hclaim.
  set (s1 := run [AddChannel 0] _) in Hclaim.
  set (s2 := run [Tick all_open; Tick all_open] s1) in Hclaim.
  assert (Hd : deliveries_to 0 (sent_since (reg s1) (reg s2))
               = [attempt all_open 65535 0; attempt all_open 0 0])
    by (vm_compute; reflexivity).
  assert (Hf : frames_delivered 0 (sent_since (reg s1) (reg s2)) = [65535; 0])
    by (vm_compute; reflexivity).
  rewrite Hd, Hf in Hclaim.
  assert (Hsorted : StronglySorted Z.lt [65535; 0]).
  { apply Hclaim.
    - vm_compute. tauto.
    - repeat constructor. }
  apply StronglySorted_inv in Hsorted as [_ Hlt].
  apply Forall_cons in Hlt as [Hlt _]. lia.
Qed.

(** Two cycles around the addition of a second channel. *)
Lemma frames_follow_the_clock_witness :
  let s := env_add 0 boot in
  let es := [Tick all_open; AddChannel 1; Tick all_open] in
  frames_delivered 0 (sent_since (reg s) (reg (run es s)))
    = clock_from (frame_n s) (ticks es) ∧
  (0 ≤ frame_n s → frame_n s + Z.of_nat (ticks es) ≤ 65536 →
   StronglySorted Z.lt (frames_delivered 0 (sent_since (reg s) (reg (run es s))))).
Proof.
  cbn zeta. apply frames_follow_the_clock.
  - vm_compute. tauto.
  - vm_compute. repeat constructor.
Defined.

(** *** The loop statement by statement *)

(** Inside the [for], as long as nobody touches the set: after [j] visits
    the iterator has [drop j l] left. *)
Lemma delivering_prefix w n u : ∀ (j : nat) (l : list channel) r,
  size (channels r) = u → (j ≤ length l)%nat →
  Nat.iter j (loop_step w) {| frame_n := n; at_pc := Delivering l u; reg := r |}
  = {| frame_n := n; at_pc := Delivering (drop j l) u;
       reg := foldl (deliver w n) r (take j l) |}.
Proof.
  induction j as [|j IH]; intros l r Hsz Hj.
  - cbn. by rewrite drop_0, take_0.
  - destruct l as [|c l]; [cbn in Hj; lia|]. cbn [length] in Hj.
    rewrite Nat.iter_succ_r.
    assert (Hstep : loop_step w {| frame_n := n; at_pc := Delivering (c :: l) u; reg := r |}
            = {| frame_n := n; at_pc := Delivering l u; reg := deliver w n r c |}).
    { unfold loop_step. cbn [at_pc reg frame_n]. by rewrite decide_False by (intros ?; done). }
    rewrite Hstep, IH; [done| |lia].
    by destruct (deliver_spec w n r c) as (-> & _).
Qed.

(** From the frame to the sleep, as long as nobody touches the set: the loop
    thread is never asleep on the way, and ends the cycle having visited
    every channel of the set. *)
Lemma finish_from_generated w s :
  at_pc s = Generated →
  let l := elements (channels (reg s)) in
  (∀ j, (j < 2 + length l)%nat → at_pc (Nat.iter j (loop_step w) s) ≠ Sleeping) ∧
  Nat.iter (2 + length l) (loop_step w) s
  = {| frame_n := next_frame_n (frame_n s); at_pc := Sleeping;
       reg := foldl (deliver w (frame_n s)) (reg s) l |}.
Proof.
  intros Hpc. cbn zeta. destruct s as [n p r]. cbn [at_pc reg frame_n] in *. subst p.
  set (l := elements (channels r)).
  assert (Hfirst : loop_step w {| frame_n := n; at_pc := Generated; reg := r |}
          = {| frame_n := n; at_pc := Delivering l (size (channels r)); reg := r |})
    by reflexivity.
  assert (Hmid : ∀ j, (j ≤ length l)%nat →
            Nat.iter (S j) (loop_step w) {| frame_n := n; at_pc := Generated; reg := r |}
            = {| frame_n := n; at_pc := Delivering (drop j l) (size (channels r));
                 reg := foldl (deliver w n) r (take j l) |}).
  { intros j Hj. rewrite Nat.iter_succ_r, Hfirst. by apply delivering_prefix. }
  split.
  - intros [|j] Hj; [cbn; done|]. rewrite Hmid by lia. cbn. done.
  - change (2 + length l)%nat with (S (S (length l))).
    rewrite Nat.iter_succ, Hmid by lia.
    rewrite drop_all, take_ge by lia.
    unfold loop_step. cbn [at_pc reg frame_n].
    rewrite decide_False; [done|]. intros Hne. apply Hne.
    by destruct (deliver_all w n l r (NoDup_elements _)) as (-> & _).
Qed.

(** The atomic cycle is the statements run without interleaving. *)
Lemma tick_refines_loop w s :
  at_pc s = Sleeping → ∃ k, Nat.iter k (loop_step w) s = tick w s.
Proof.
  intros Hpc. destruct s as [n p r]. cbn [at_pc] in Hpc. subst p.
  unfold tick, cycle. cbn [frame_n reg]. reg_simpl.
  destruct (decide (size (channels r ∖ to_be_removed r) ≤ 0)%nat) as [Hsz|Hsz].
  - exists 4%nat. cbn [Nat.iter nat_rect]. unfold loop_step at 4. cbn [at_pc reg frame_n].
    unfold loop_step at 3. cbn [at_pc reg frame_n].
    unfold loop_step at 2. cbn [at_pc reg frame_n].
    unfold loop_step. cbn [at_pc reg frame_n]. reg_simpl.
    by rewrite decide_True by done.
  - set (r3 := log_gen n (set_channels (channels r ∖ to_be_removed r) (set_to_be_removed ∅ r))).
    assert (Hgen : Nat.iter 4 (loop_step w) {| frame_n := n; at_pc := Sleeping; reg := r |}
                   = {| frame_n := n; at_pc := Generated; reg := r3 |}).
    { cbn [Nat.iter nat_rect]. unfold loop_step at 4. cbn [at_pc reg frame_n].
      unfold loop_step at 3. cbn [at_pc reg frame_n].
      unfold loop_step at 2. cbn [at_pc reg frame_n].
      unfold loop_step. cbn [at_pc reg frame_n]. reg_simpl.
      by rewrite decide_False by done. }
    destruct (finish_from_generated w {| frame_n := n; at_pc := Generated; reg := r3 |} eq_refl)
      as [_ Hrun].
    cbn [reg frame_n] in Hrun.
    exists (2 + length (elements (channels r3)) + 4)%nat.
    rewrite Nat.iter_add, Hgen, Hrun. done.
Qed.

(** One cycle over two channels, and what an addition inside the [for]
    does to the loop thread. *)
Example cycle_over_two_channels :
  sent (cycle all_open 5 (add_channel 2 (add_channel 1 initial)))
  = [attempt all_open 5 2; attempt all_open 5 1] ∧
  gen_calls (cycle all_open 5 (add_channel 2 (add_channel 1 initial))) = [5].
Proof. split; vm_compute; reflexivity. Qed.

Example addition_inside_the_for_crashes :
  let s := Nat.iter 5 (loop_step all_open) (env_add 1 boot) in
  at_pc s = Delivering [1%nat] 1 ∧
  at_pc (loop_step all_open (env_add 2 s)) = Crashed.
Proof. split; vm_compute; reflexivity. Qed.






End BroadcastFacts.

(** ** Connection manager *)

Section SignalingFacts.
Import Signaling.
Variable parse_uuid : string → option uuid.
Implicit Types (m : manager) (req : payload) (fresh : uuid).

Lemma negotiate_state m id answer : (negotiate m id answer).2 = m.
Proof. by destruct answer. Qed.

(** C5: an offer whose body does not parse into a [ConnectionInfo], or whose
    [id] names no tracked session (it is no UUID, or a UUID that is no key
    of [connections]), ends with an exception and leaves the whole state of
    the manager, the registry included, as it was. *)
Theorem bad_offer_changes_nothing m req fresh answer :
  (parse_request req = None ∨
   ∃ info sid, parse_request req = Some info ∧ info_id info = Some sid ∧
     ∀ id, parse_uuid sid = Some id → connections m !! id = None) →
  ∃ e, offer parse_uuid m req fresh answer = (Failure e, m).
Proof.
  unfold offer. intros [Hbad|(info & sid & Hinfo & Hsid & Hunknown)].
  - rewrite Hbad. eauto.
  - rewrite Hinfo, Hsid.
    destruct (parse_uuid sid) as [id|] eqn:Hid; [|eauto].
    rewrite (Hunknown id eq_refl). eauto.
Qed.

Lemma offer_well_formed m req fresh answer :
  well_formed m → well_formed (offer parse_uuid m req fresh answer).2.
Proof.
  intros [Hinj Hbound]. unfold offer.
  destruct (parse_request req) as [info|]; [|done].
  destruct (info_id info) as [sid|].
  - destruct (parse_uuid sid) as [id|]; [|done].
    destruct (connections m !! id); [|done]. by rewrite negotiate_state.
  - rewrite negotiate_state. split; cbn [connections peers].
    + intros i j p Hi Hj.
      apply lookup_insert_Some in Hi as [[<- <-]|[Hni Hi]];
        apply lookup_insert_Some in Hj as [[<- Hp]|[Hnj Hj]]; try done.
      * apply Hbound in Hj. lia.
      * subst p. apply Hbound in Hi. lia.
      * by eapply Hinj.
    + intros i p [[<- <-]|[Hni Hi]]%lookup_insert_Some; [lia|].
      apply Hbound in Hi. lia.
Qed.

Lemma serve_well_formed m q : well_formed m → well_formed (serve parse_uuid m q).
Proof.
  intros Hwf. destruct q as [req fresh answer|id p|]; cbn [serve].
  - by apply offer_well_formed.
  - unfold on_constate. case_decide; [|done].
    destruct Hwf as [Hinj Hbound]. split; cbn [connections peers].
    + intros i j q [_ Hi]%lookup_delete_Some [_ Hj]%lookup_delete_Some. by eapply Hinj.
    + intros i q [_ Hi]%lookup_delete_Some. by eapply Hbound.
  - split; cbn [on_shutdown connections]; intros *; by rewrite lookup_empty.
Qed.

Lemma serve_all_well_formed qs : ∀ m,
  well_formed m → well_formed (serve_all parse_uuid qs m).
Proof.
  induction qs as [|q qs IH]; intros m Hwf; [done|].
  cbn [serve_all foldl]. apply IH. by apply serve_well_formed.
Qed.

Lemma start_well_formed : well_formed start.
Proof. split; cbn; intros *; by rewrite lookup_empty. Qed.

Lemma well_formed_values_NoDup m :
  well_formed m → NoDup (map_to_list (connections m)).*2.
Proof.
  intros [Hinj _]. apply NoDup_fmap_2_strong; [|apply NoDup_map_to_list].
  intros [i p] [j q] Hi Hj Heq. cbn in Heq. subst q.
  apply elem_of_map_to_list in Hi, Hj. f_equal. by eapply Hinj.
Qed.

(** C3, as the code has it: in every state the manager can reach,
    [on_shutdown] calls [close()] once for each tracked session, on as many
    distinct connections, and leaves the registry empty. [offer] does not
    look at the shutdown: an offer without [id] that arrives afterwards and
    whose negotiation succeeds is answered and registers a new session. *)
Theorem shutdown_closes_every_session (qs : list request) :
  let m := serve_all parse_uuid qs start in
  connections (on_shutdown m) = ∅ ∧
  closes_since m (on_shutdown m) = (map_to_list (connections m)).*2 ∧
  NoDup (closes_since m (on_shutdown m)) ∧
  (∀ id p, connections m !! id = Some p → p ∈ closes_since m (on_shutdown m)) ∧
  (∀ req info fresh desc,
     parse_request req = Some info → info_id info = None →
     offer parse_uuid (on_shutdown m) req fresh (Some desc)
     = (Answer desc fresh,
        {| connections := {[fresh := peers m]}; peers := S (peers m);
           handlers := handlers m ++ [(fresh, peers m)];
           closes := closes (on_shutdown m) |})).
Proof.
  cbn zeta. set (m := serve_all parse_uuid qs start).
  assert (Hsince : closes_since m (on_shutdown m) = (map_to_list (connections m)).*2).
  { unfold closes_since, on_shutdown. cbn [closes]. apply drop_app_length. }
  rewrite Hsince. split; [done|]. split; [done|]. split; [|split].
  - apply well_formed_values_NoDup, serve_all_well_formed, start_well_formed.
  - intros id p Hp. apply list_elem_of_fmap. exists (id, p).
    split; [done|]. by apply elem_of_map_to_list.
  - intros req info fresh desc Hreq Hid. unfold offer. rewrite Hreq, Hid.
    cbn [negotiate on_shutdown connections peers handlers closes].
    by rewrite insert_empty.
Qed.

End SignalingFacts.

Example hex_uuid_reads :
  Signaling.hex_uuid "00000000-0000-0000-0000-000000000008" = Some 8%N ∧
  Signaling.hex_uuid "0000000000000000000000000000000A" = Some 10%N ∧
  Signaling.hex_uuid "not-a-uuid" = None.
Proof. repeat split; vm_compute; reflexivity. Qed.

Example first_offer_is_answered :
  Signaling.offer Signaling.hex_uuid Signaling.start Signaling.first_offer 7%N
    (Some Signaling.an_answer)
  = (Signaling.Answer Signaling.an_answer 7%N,
     {| Signaling.connections := {[7%N := 0%nat]}; Signaling.peers := 1;
        Signaling.handlers := [(7%N, 0%nat)]; Signaling.closes := [] |}).
Proof. vm_compute. reflexivity. Qed.

(** With one session tracked under the UUID 7, an offer for the UUID 8. *)
Lemma bad_offer_changes_nothing_witness :
  let tracked := (Signaling.offer Signaling.hex_uuid Signaling.start
                    Signaling.first_offer 7%N (Some Signaling.an_answer)).2 in
  ∃ e, Signaling.offer Signaling.hex_uuid tracked
         (Signaling.offer_for "00000000-0000-0000-0000-000000000008") 9%N
         (Some Signaling.an_answer)
       = (Signaling.Failure e, tracked).
Proof.
  cbn zeta. apply bad_offer_changes_nothing. right.
  exists {| Signaling.info_sdp := "v=0"; Signaling.info_type := "offer";
            Signaling.info_id := Some "00000000-0000-0000-0000-000000000008" |},
         "00000000-0000-0000-0000-000000000008".
  split; [vm_compute; reflexivity|]. split; [reflexivity|].
  intros id Hid. vm_compute in Hid. injection Hid as <-. vm_compute. reflexivity.
Defined.

(** C3 as stated fails: whatever the history and the UUID parser, a first
    offer that arrives after [on_shutdown] is answered, not rejected, and
    the registry is not empty any more. *)
Lemma offer_after_shutdown_is_answered :
  ∃ req fresh desc, ∀ parse_uuid qs,
    let m := Signaling.on_shutdown (Signaling.serve_all parse_uuid qs Signaling.start) in
    (Signaling.offer parse_uuid m req fresh (Some desc)).1 = Signaling.Answer desc fresh ∧
    Signaling.connections (Signaling.offer parse_uuid m req fresh (Some desc)).2 ≠ ∅.
Proof.
  exists Signaling.first_offer, 7%N, Signaling.an_answer. intros parse_uuid qs. cbn zeta.
  set (m := Signaling.serve_all parse_uuid qs Signaling.start).
  unfold Signaling.offer.
  assert (Signaling.parse_request Signaling.first_offer
          = Some {| Signaling.info_sdp := "v=0"; Signaling.info_type := "offer";
                    Signaling.info_id := None |}) as -> by (vm_compute; reflexivity).
  cbn. split; [done|]. apply insert_non_empty.
Qed.

(** ** Frame generator *)

Section Float64Facts.
Import FrameGen.

(** *** Reading a binary64 value back from its bytes *)

Lemma digits2_pos_bounds (m : positive) :
  2 ^ (Z.pos (SpecFloat.digits2_pos m) - 1) ≤ Z.pos m
  < 2 ^ Z.pos (SpecFloat.digits2_pos m).
Proof.
  induction m as [m IH|m IH|]; cbn [SpecFloat.digits2_pos].
  - rewrite Pos2Z.inj_succ.
    replace (Z.succ (Z.pos (SpecFloat.digits2_pos m)) - 1)
      with (Z.succ (Z.pos (SpecFloat.digits2_pos m) - 1)) by lia.
    rewrite !Z.pow_succ_r by lia. lia.
  - rewrite Pos2Z.inj_succ.
    replace (Z.succ (Z.pos (SpecFloat.digits2_pos m)) - 1)
      with (Z.succ (Z.pos (SpecFloat.digits2_pos m) - 1)) by lia.
    rewrite !Z.pow_succ_r by lia. lia.
  - cbn. lia.
Qed.

(** The finite binary64 values: subnormal, with a mantissa below [2^52] at
    the exponent -1074, or normal, with a mantissa of 53 bits. *)
Lemma valid_finite_bounds (s : bool) (m : positive) (e : Z) :
  FloatAxioms.valid_binary (S754_finite s m e) = true →
  (Z.pos m < 2 ^ 52 ∧ e = -1074) ∨ (2 ^ 52 ≤ Z.pos m < 2 ^ 53 ∧ -1074 ≤ e ≤ 971).
Proof.
  cbn [SpecFloat.valid_binary].
  unfold SpecFloat.bounded, SpecFloat.canonical_mantissa, SpecFloat.fexp, SpecFloat.emin.
  intros [Hcanon Hmax]%andb_prop.
  apply Z.eqb_eq in Hcanon. apply Z.leb_le in Hmax.
  change prec with 53 in *. change emax with 1024 in *.
  pose proof (digits2_pos_bounds m) as [Hlo Hhi].
  set (d := Z.pos (SpecFloat.digits2_pos m)) in *.
  assert (Hd : 1 ≤ d) by (unfold d; lia).
  destruct (Z.lt_ge_cases (Z.pos m) (2 ^ 52)) as [Hsub|Hnorm].
  - left. split; [done|].
    assert (d ≤ 52); [|lia].
    apply Z.nlt_ge. intros Hbig.
    assert (2 ^ 52 ≤ 2 ^ (d - 1)) by (apply Z.pow_le_mono_r; lia). lia.
  - right.
    assert (53 ≤ d).
    { apply Z.nlt_ge. intros Hsmall.
      assert (2 ^ d ≤ 2 ^ 52) by (apply Z.pow_le_mono_r; lia). lia. }
    assert (d = 53) as Hd53 by lia.
    rewrite Hd53 in Hhi. lia.
Qed.

(** The bit pattern of a float fits 64 bits and reads back as that float. *)
Lemma bits_spec_float_float_bits (x : float) :
  bits_spec_float (float_bits x) = Prim2SF x ∧ 0 ≤ float_bits x < 2 ^ 64.
Proof.
  pose proof (FloatAxioms.Prim2SF_valid x) as Hvalid.
  unfold float_bits. destruct (Prim2SF x) as [s|s| |s m e].
  - destruct s; split; try reflexivity; cbn; lia.
  - destruct s; split; try reflexivity; cbn; lia.
  - split; [reflexivity | cbn; lia].
  - apply valid_finite_bounds in Hvalid.
    unfold bits_spec_float.
    change (2 ^ 52) with 4503599627370496 in *.
    change (2 ^ 53) with 9007199254740992 in *.
    change (2 ^ 63) with 9223372036854775808 in *.
    change (2 ^ 64) with 18446744073709551616 in *.
    destruct Hvalid as [[Hm ->]|[Hm He]].
    + rewrite (proj2 (Z.ltb_lt _ _) Hm).
      assert (Hbits : ∀ sign, sign = 0 ∨ sign = 9223372036854775808 →
                (sign + Z.pos m) / 4503599627370496 mod 2048 = 0 ∧
                (sign + Z.pos m) mod 4503599627370496 = Z.pos m).
      { intros sign Hsign.
        split; destruct Hsign as [-> | ->]; Z.div_mod_to_equations; lia. }
      destruct s.
      * destruct (Hbits 9223372036854775808) as [-> ->]; [by right|].
        split; [|lia]. cbn [Z.eqb]. by rewrite (proj2 (Z.leb_le _ _)) by lia.
      * destruct (Hbits 0) as [-> ->]; [by left|].
        split; [|lia]. cbn [Z.eqb]. rewrite Z.add_0_l.
        by rewrite (proj2 (Z.leb_gt _ _)) by lia.
    + rewrite (proj2 (Z.ltb_ge _ _)) by lia.
      assert (Hbits : ∀ sign, sign = 0 ∨ sign = 9223372036854775808 →
                (sign + ((e + 1075) * 4503599627370496 + (Z.pos m - 4503599627370496)))
                  / 4503599627370496 mod 2048 = e + 1075 ∧
                (sign + ((e + 1075) * 4503599627370496 + (Z.pos m - 4503599627370496)))
                  mod 4503599627370496 = Z.pos m - 4503599627370496).
      { intros sign Hsign.
        split; destruct Hsign as [-> | ->]; Z.div_mod_to_equations; lia. }
      assert (Hne0 : (e + 1075 =? 0) = false) by (apply Z.eqb_neq; lia).
      assert (Hne1 : (e + 1075 =? 2047) = false) by (apply Z.eqb_neq; lia).
      destruct s.
      * destruct (Hbits 9223372036854775808) as [-> ->]; [by right|].
        rewrite Hne0, Hne1.
        replace (Z.pos m - 4503599627370496 + 4503599627370496) with (Z.pos m) by lia.
        replace (e + 1075 - 1075) with e by lia.
        split; [|lia]. by rewrite (proj2 (Z.leb_le _ _)) by lia.
      * destruct (Hbits 0) as [-> ->]; [by left|].
        rewrite Hne0, Hne1.
        replace (Z.pos m - 4503599627370496 + 4503599627370496) with (Z.pos m) by lia.
        replace (e + 1075 - 1075) with e by lia.
        split; [|lia]. by rewrite (proj2 (Z.leb_gt _ _)) by lia.
Qed.

Lemma float_of_bits_float_bits (x : float) : float_of_bits (float_bits x) = x.
Proof.
  unfold float_of_bits. rewrite (proj1 (bits_spec_float_float_bits x)).
  apply FloatAxioms.SF2Prim_Prim2SF.
Qed.

End Float64Facts.

Section FrameGenFacts.
Import FrameGen.
Variable order : byteorder.
Variable np_sin : float → float.

Lemma le_bytes_length (w : nat) : ∀ v, length (le_bytes w v) = w.
Proof. induction w as [|w IH]; intros v; cbn; [done|]. by rewrite IH. Qed.

Lemma tobytes_length (w : nat) (v : Z) : length (tobytes order w v) = w.
Proof. destruct order; cbn; [|rewrite length_rev]; apply le_bytes_length. Qed.

Lemma float64_bytes_length (x : float) : length (float64_bytes order x) = 8%nat.
Proof. apply tobytes_length. Qed.

Lemma le_value_le_bytes (w : nat) : ∀ v,
  le_value (le_bytes w v) = v mod 2 ^ (8 * Z.of_nat w).
Proof.
  induction w as [|w IH]; intros v.
  - cbn. by rewrite Z.mod_1_r.
  - cbn [le_bytes le_value]. rewrite IH.
    replace (8 * Z.of_nat (S w)) with (8 + 8 * Z.of_nat w) by lia.
    rewrite Z.pow_add_r by lia.
    change (2 ^ 8) with 256.
    rewrite Z.rem_mul_r by lia. done.
Qed.

Lemma frombytes_tobytes (w : nat) (v : Z) :
  frombytes order (tobytes order w v) = v mod 2 ^ (8 * Z.of_nat w).
Proof.
  destruct order; cbn; [|rewrite rev_involutive]; apply le_value_le_bytes.
Qed.

Lemma np_linspace_length start stop num : length (np_linspace start stop num) = num.
Proof. unfold np_linspace. by rewrite length_fmap, length_seq. Qed.

Lemma samples_length i : length (samples np_sin i) = 1000%nat.
Proof. unfold samples, time_axis. by rewrite length_fmap, np_linspace_length. Qed.

Lemma deltas_defined : ∃ dt, deltas = Some dt ∧ length dt = 1000%nat.
Proof. eexists. split; vm_compute; reflexivity. Qed.

Lemma astype_H_in_range (i : Z) :
  - 2 ^ 63 ≤ i < 2 ^ 64 → astype_H i = Some (i mod 65536).
Proof.
  intros [Hlo Hhi]. unfold astype_H.
  by rewrite (proj2 (Z.leb_le _ _) Hlo), (proj2 (Z.ltb_lt _ _) Hhi).
Qed.

Lemma astype_H_out_of_range (i : Z) :
  ¬ (- 2 ^ 63 ≤ i < 2 ^ 64) → astype_H i = None.
Proof.
  intros Hout. unfold astype_H.
  destruct (Z.leb_spec (- 2 ^ 63) i); [|done].
  destruct (Z.ltb_spec i (2 ^ 64)); [|done]. lia.
Qed.

(** [gen_frame] raises on the index alone: the two arrays have 1000
    elements each. *)
Lemma gen_frame_unfold :
  ∃ dt, deltas = Some dt ∧ length dt = 1000%nat ∧
    ∀ i, gen_frame order np_sin i
         = (λ h, tobytes order 2 h ++ pairs_bytes order dt (samples np_sin i))
           <$> astype_H i.
Proof.
  destruct deltas_defined as (dt & Hdt & Hlen). exists dt.
  split; [done|]. split; [done|]. intros i.
  unfold gen_frame, frame_from_arrays.
  rewrite Hdt, Hlen, samples_length, Nat.eqb_refl. by destruct (astype_H i).
Qed.

(** [gen_frame] on an index that fits 64 bits. *)
Lemma gen_frame_in_range :
  ∃ dt, deltas = Some dt ∧ length dt = 1000%nat ∧
    ∀ i, - 2 ^ 63 ≤ i < 2 ^ 64 →
         gen_frame order np_sin i
         = Some (tobytes order 2 (i mod 65536) ++ pairs_bytes order dt (samples np_sin i)).
Proof.
  destruct gen_frame_unfold as (dt & Hdt & Hlen & Hgen). exists dt.
  split; [done|]. split; [done|]. intros i Hi.
  by rewrite Hgen, astype_H_in_range.
Qed.

(** The 8 bytes written for a float read back as that float, in either
    byte order. *)
Lemma float64_frombytes_float64_bytes (x : float) :
  float64_frombytes order (float64_bytes order x) = x.
Proof.
  unfold float64_frombytes, float64_bytes. rewrite frombytes_tobytes.
  change (2 ^ (8 * Z.of_nat 8)) with (2 ^ 64).
  rewrite Z.mod_small by apply bits_spec_float_float_bits.
  apply float_of_bits_float_bits.
Qed.

(** The bytes of the [k]-th element in a concatenation of chunks of one size. *)
Lemma flat_map_chunk {A} (f : A → list Z) (n : nat) :
  (∀ a, length (f a) = n) →
  ∀ (l : list A) (k : nat) (a : A),
    l !! k = Some a → take n (drop (n * k) (flat_map f l)) = f a.
Proof.
  intros Hlen. induction l as [|b l IH]; intros k a Hk; [done|].
  cbn [flat_map]. destruct k as [|k].
  - injection Hk as ->. rewrite Nat.mul_0_r, drop_0.
    by rewrite take_app_length' by (by rewrite Hlen).
  - replace (n * S k)%nat with (n + n * k)%nat by lia.
    rewrite <- drop_drop, drop_app_length' by (by rewrite Hlen).
    by apply IH.
Qed.

Lemma flat_map_chunks_length {A} (f : A → list Z) (n : nat) :
  (∀ a, length (f a) = n) → ∀ l : list A, length (flat_map f l) = (n * length l)%nat.
Proof.
  intros Hlen. induction l as [|b l IH]; cbn [flat_map length]; [lia|].
  rewrite length_app, Hlen, IH. lia.
Qed.

Lemma pair_bytes_length (p : float * float) :
  length (float64_bytes order p.1 ++ float64_bytes order p.2) = 16%nat.
Proof. by rewrite length_app, !float64_bytes_length. Qed.

(** In the bytes of the pairs, the [k]-th chunk of 16 bytes is [dt[k]]
    followed by [y[k]]. *)
Lemma pairs_bytes_chunk (dt y : list float) (k : nat) (d v : float) :
  dt !! k = Some d → y !! k = Some v →
  take 8 (drop (16 * k) (pairs_bytes order dt y)) = float64_bytes order d ∧
  take 8 (drop (16 * k + 8) (pairs_bytes order dt y)) = float64_bytes order v.
Proof.
  intros Hd Hv.
  assert (Hz : zip dt y !! k = Some (d, v)).
  { apply lookup_zip_with_Some. eauto. }
  pose proof (flat_map_chunk _ 16 pair_bytes_length _ _ _ Hz) as Hchunk.
  cbn [fst snd] in Hchunk. fold (pairs_bytes order dt y) in Hchunk.
  split.
  - apply (f_equal (take 8)) in Hchunk.
    rewrite take_take in Hchunk. change (8 `min` 16)%nat with 8%nat in Hchunk.
    rewrite Hchunk.
    by rewrite take_app_length' by (by rewrite float64_bytes_length).
  - rewrite <- drop_drop, take_drop_commute.
    change (8 + 8)%nat with 16%nat. rewrite Hchunk.
    by rewrite drop_app_length' by (by rewrite float64_bytes_length).
Qed.

(** C9: for [0 ≤ i < 65536], [gen_frame i] is defined; its payload is
    2 + 1000 * (8 + 8) bytes long; the first two bytes are the unsigned
    16-bit encoding of [i], which reads back as [i]; then come 1000 pairs
    of binary64 values, the [k]-th pair being [dt[k]] on 8 bytes followed
    by [y[k]] on 8 bytes: read as binary64, the first 8 bytes of the pair
    give the time delta [dt[k]] and the next 8 the sample [y[k]]. *)
Theorem gen_frame_layout (i : Z) :
  0 ≤ i < 65536 →
  ∃ dt payload,
    deltas = Some dt ∧ length dt = 1000%nat ∧ length (samples np_sin i) = 1000%nat ∧
    gen_frame order np_sin i = Some payload ∧
    payload = tobytes order 2 i ++ pairs_bytes order dt (samples np_sin i) ∧
    length payload = (2 + 1000 * (8 + 8))%nat ∧
    frombytes order (take 2 payload) = i ∧
    ∀ (k : nat) (d y : float),
      dt !! k = Some d → samples np_sin i !! k = Some y →
      take 8 (drop (2 + 16 * k) payload) = float64_bytes order d ∧
      take 8 (drop (2 + 16 * k + 8) payload) = float64_bytes order y ∧
      float64_frombytes order (take 8 (drop (2 + 16 * k) payload)) = d ∧
      float64_frombytes order (take 8 (drop (2 + 16 * k + 8) payload)) = y.
Proof.
  intros Hi. destruct gen_frame_in_range as (dt & Hdt & Hlen & Hgen).
  exists dt, (tobytes order 2 i ++ pairs_bytes order dt (samples np_sin i)).
  pose proof (samples_length i) as Hy.
  assert (Hprefix : length (tobytes order 2 i) = 2%nat) by apply tobytes_length.
  split; [done|]. split; [done|]. split; [done|]. split; [|split; [done|]].
  { rewrite Hgen by lia. by rewrite Z.mod_small by lia. }
  split; [|split].
  - rewrite length_app, Hprefix. unfold pairs_bytes.
    rewrite (flat_map_chunks_length _ 16 pair_bytes_length).
    rewrite length_zip_with, Hlen, Hy. reflexivity.
  - rewrite take_app_length' by done. rewrite frombytes_tobytes.
    apply Z.mod_small. cbn. lia.
  - intros k d y Hd Hyk.
    replace (2 + 16 * k + 8)%nat with (2 + (16 * k + 8))%nat by lia.
    rewrite <- (drop_drop _ _ 2), <- (drop_drop _ (16 * k + 8) 2).
    rewrite !drop_app_length' by done.
    destruct (pairs_bytes_chunk dt _ k d y Hd Hyk) as [-> ->].
    by rewrite !float64_frombytes_float64_bytes.
Qed.

Lemma all_from_spec (test : Z → bool) (len : nat) : ∀ start,
  all_from test start len = true →
  ∀ i, start ≤ i < start + Z.of_nat len → test i = true.
Proof.
  induction len as [|len IH]; intros start Hall i Hi; [lia|].
  cbn [all_from] in Hall. apply andb_prop in Hall as [Hhere Hrest].
  destruct (decide (i = start)) as [->|Hne]; [done|].
  apply (IH (start + 1)); [done|lia].
Qed.

(** The envelope in closed form on the indices the clock can yield and the
    64 after them, by evaluation of the binary64 arithmetic on each of them. *)
Lemma amplitude_closed_form (i : Z) :
  0 ≤ i < 65600 →
  amplitude i = PrimFloat.add (PrimFloat.div (of_int (i mod 64)) (of_int 64)) 0.5.
Proof.
  intros Hi. apply FloatAxioms.Leibniz.eqb_spec.
  apply (all_from_spec
           (λ k, PrimFloat.Leibniz.eqb (amplitude k)
                   (PrimFloat.add (PrimFloat.div (of_int (k mod 64)) (of_int 64)) 0.5))
           (Z.to_nat 65600) 0); [vm_compute; reflexivity | lia].
Qed.

Lemma amplitude_period (i : Z) : 0 ≤ i < 65536 → amplitude i = amplitude (i + 64).
Proof.
  intros Hi. rewrite !amplitude_closed_form by lia.
  replace (i + 64) with (i + 1 * 64) by lia. by rewrite Z_mod_plus_full.
Qed.

(** C10, as the code has it: for [0 ≤ i < 65536] the envelope takes the
    same value at [i] and [i + 64], and the payloads of [gen_frame i] and
    [gen_frame (i + 64)] are the same from byte 2 on. *)
Theorem gen_frame_body_period (i : Z) :
  0 ≤ i < 65536 →
  amplitude i = amplitude (i + 64) ∧
  ∃ p1 p2, gen_frame order np_sin i = Some p1 ∧
           gen_frame order np_sin (i + 64) = Some p2 ∧
           drop 2 p1 = drop 2 p2.
Proof.
  intros Hi. pose proof (amplitude_period i Hi) as Hamp. split; [done|].
  destruct gen_frame_in_range as (dt & Hdt & Hlen & Hgen).
  exists (tobytes order 2 (i mod 65536) ++ pairs_bytes order dt (samples np_sin i)),
         (tobytes order 2 ((i + 64) mod 65536)
          ++ pairs_bytes order dt (samples np_sin (i + 64))).
  rewrite !Hgen by lia.
  split; [done|]. split; [done|].
  rewrite !drop_app_length' by (by rewrite tobytes_length).
  unfold samples. by rewrite Hamp.
Qed.

(** Two frames whose samples differ somewhere differ after the prefix. *)
Lemma gen_frame_bodies_differ (i j : Z) (k : nat) (x : float) :
  time_axis !! k = Some x →
  float64_bytes order (PrimFloat.mul (amplitude i) (np_sin (phase x)))
  ≠ float64_bytes order (PrimFloat.mul (amplitude j) (np_sin (phase x))) →
  ∀ p1 p2, gen_frame order np_sin i = Some p1 →
           gen_frame order np_sin j = Some p2 →
           drop 2 p1 ≠ drop 2 p2.
Proof.
  intros Hx Hdiff p1 p2 Hp1 Hp2 Hbody.
  destruct gen_frame_unfold as (dt & Hdt & Hlen & Hgen).
  rewrite Hgen in Hp1, Hp2.
  destruct (astype_H i) as [hi|]; [|done]. destruct (astype_H j) as [hj|]; [|done].
  injection Hp1 as <-. injection Hp2 as <-.
  rewrite !drop_app_length' in Hbody by (by rewrite tobytes_length).
  assert (Hk : (k < 1000)%nat).
  { apply lookup_lt_Some in Hx. unfold time_axis in Hx.
    by rewrite np_linspace_length in Hx. }
  destruct (lookup_lt_is_Some_2 dt k) as [d Hd]; [lia|].
  assert (Hy : ∀ n, samples np_sin n !! k
               = Some (PrimFloat.mul (amplitude n) (np_sin (phase x)))).
  { intros n. unfold samples. by rewrite list_lookup_fmap, Hx. }
  destruct (pairs_bytes_chunk dt _ k d _ Hd (Hy i)) as [_ Hc1].
  destruct (pairs_bytes_chunk dt _ k d _ Hd (Hy j)) as [_ Hc2].
  rewrite Hbody, Hc2 in Hc1. by apply Hdiff.
Qed.

End FrameGenFacts.

Example float64_bytes_little :
  FrameGen.float64_bytes FrameGen.Little 0.53125 = [0; 0; 0; 0; 0; 0; 225; 63] ∧
  FrameGen.float64_bytes FrameGen.Big (-1) = [191; 240; 0; 0; 0; 0; 0; 0] ∧
  FrameGen.float64_frombytes FrameGen.Little [0; 0; 0; 0; 0; 0; 225; 63] = 0.53125%float ∧
  FrameGen.astype_H 258 = Some 258 ∧ FrameGen.tobytes FrameGen.Little 2 258 = [2; 1] ∧
  FrameGen.astype_H 70000 = Some 4464 ∧ FrameGen.astype_H (-1) = Some 65535 ∧
  FrameGen.astype_H (2 ^ 64 - 1) = Some 65535 ∧ FrameGen.astype_H (2 ^ 64) = None ∧
  FrameGen.astype_H (- 2 ^ 63) = Some 0 ∧ FrameGen.astype_H (- 2 ^ 63 - 1) = None.
Proof. repeat split; vm_compute; reflexivity. Qed.

Example amplitude_values :
  FrameGen.amplitude 0 = 0.5%float ∧ FrameGen.amplitude 1 = 0.515625%float ∧
  FrameGen.amplitude 63 = 1.484375%float ∧ FrameGen.amplitude 64 = 0.5%float ∧
  FrameGen.mod1 (-0.25) = 0.75%float ∧ FrameGen.mod1 3.75 = 0.75%float.
Proof. repeat split; vm_compute; reflexivity. Qed.

(** Frame 258 in little-endian order; the identity stands in for [np.sin]. *)
Lemma gen_frame_layout_witness :
  ∃ dt payload,
    FrameGen.deltas = Some dt ∧ length dt = 1000%nat ∧
    length (FrameGen.samples (λ x, x) 258) = 1000%nat ∧
    FrameGen.gen_frame FrameGen.Little (λ x, x) 258 = Some payload ∧
    payload = FrameGen.tobytes FrameGen.Little 2 258
              ++ FrameGen.pairs_bytes FrameGen.Little dt (FrameGen.samples (λ x, x) 258) ∧
    length payload = (2 + 1000 * (8 + 8))%nat ∧
    FrameGen.frombytes FrameGen.Little (take 2 payload) = 258 ∧
    ∀ (k : nat) (d y : float),
      dt !! k = Some d → FrameGen.samples (λ x, x) 258 !! k = Some y →
      take 8 (drop (2 + 16 * k) payload) = FrameGen.float64_bytes FrameGen.Little d ∧
      take 8 (drop (2 + 16 * k + 8) payload) = FrameGen.float64_bytes FrameGen.Little y ∧
      FrameGen.float64_frombytes FrameGen.Little (take 8 (drop (2 + 16 * k) payload)) = d ∧
      FrameGen.float64_frombytes FrameGen.Little (take 8 (drop (2 + 16 * k + 8) payload)) = y.
Proof. apply (gen_frame_layout FrameGen.Little (λ x, x) 258). lia. Defined.

Lemma gen_frame_body_period_witness :
  FrameGen.amplitude 65535 = FrameGen.amplitude (65535 + 64) ∧
  ∃ p1 p2, FrameGen.gen_frame FrameGen.Little (λ x, x) 65535 = Some p1 ∧
           FrameGen.gen_frame FrameGen.Little (λ x, x) (65535 + 64) = Some p2 ∧
           drop 2 p1 = drop 2 p2.
Proof. apply (gen_frame_body_period FrameGen.Little (λ x, x) 65535). lia. Defined.

(** C10 as stated fails far beyond the indices the clock yields: at
    [i = 2^54 - 62 = 18014398509481922] the quotient [i / 64] is exact and has the fractional
    part 1/32, while [(i + 64) / 64] rounds to the integer [2^48]; the
    envelope is 0.53125 at [i] and 0.5 at [i + 64], and the payloads differ
    from byte 2 on as soon as one sample of the sine makes the two products
    differ. *)
Lemma gen_frame_body_period_breaks :
  ∃ i, 0 ≤ i ∧
    FrameGen.amplitude i = 0.53125%float ∧
    FrameGen.amplitude (i + 64) = 0.5%float ∧
    FrameGen.amplitude i ≠ FrameGen.amplitude (i + 64) ∧
    ∀ order np_sin (k : nat) (x : float),
      FrameGen.time_axis !! k = Some x →
      FrameGen.float64_bytes order (PrimFloat.mul 0.53125 (np_sin (FrameGen.phase x)))
      ≠ FrameGen.float64_bytes order (PrimFloat.mul 0.5 (np_sin (FrameGen.phase x))) →
      ∀ p1 p2, FrameGen.gen_frame order np_sin i = Some p1 →
               FrameGen.gen_frame order np_sin (i + 64) = Some p2 →
               drop 2 p1 ≠ drop 2 p2.
Proof.
  (* 2^54 - 62 *)
  exists 18014398509481922.
  assert (H1 : FrameGen.amplitude 18014398509481922 = 0.53125%float)
    by (vm_compute; reflexivity).
  assert (H2 : FrameGen.amplitude (18014398509481922 + 64) = 0.5%float)
    by (vm_compute; reflexivity).
  split; [lia|]. split; [done|]. split; [done|]. split.
  { rewrite H1, H2. intros Heq.
    apply (f_equal FrameGen.float_bits) in Heq. vm_compute in Heq. discriminate. }
  intros order np_sin k x Hx Hdiff.
  apply (gen_frame_bodies_differ order np_sin _ _ k x Hx). by rewrite H1, H2.
Qed.

(* ===================================================================== *)
(** * Further properties of the code *)
(* ===================================================================== *)

(** ** Broadcast loop: what one cycle does *)

Section CycleFacts.
Import FrameClock Broadcast.
Implicit Types (r : registry) (c : channel) (w : world) (n : Z) (s : system).



(** X2: a channel whose [send] raises [InvalidStateError] while its
    [readyState] still reads "open" is neither queued nor removed: it is in
    the active set after the cycle and is sent the frame of the next one. *)
Theorem open_channel_survives_invalid_state w n r c :
  c ∈ channels r → c ∉ to_be_removed r →
  send_result (w c) = InvalidStateError → readyState (w c) = Open →
  c ∈ channels (cycle w n r) ∧ (c ∉ to_be_removed (cycle w n r)) ∧
  ∀ w' n', deliveries_to c (sent_since (cycle w n r) (cycle w' n' (cycle w n r)))
           = [attempt w' n' c].
Proof.
  intros Hin Hnq Hfail Hopen.
  destruct (cycle_spec w n r) as (Hch & _ & Htbr & _ & _).
  assert (Hin1 : c ∈ channels (cycle w n r)) by (rewrite Hch; set_solver).
  assert (Hnq1 : c ∉ to_be_removed (cycle w n r)).
  { rewrite Htbr. intros [[_ Hno] _]%elem_of_filter. done. }
  split; [done|]. split; [done|]. intros w' n'.
  destruct (cycle_spec w' n' (cycle w n r)) as (_ & _ & _ & Hsent & _).
  rewrite (sent_since_app _ _ _ Hsent).
  rewrite deliveries_to_attempts by apply NoDup_elements.
  rewrite decide_True; [done|]. set_solver.
Qed.

Lemma open_channel_survives_invalid_state_witness :
  let w : world := λ _, {| send_result := InvalidStateError; readyState := Open |} in
  let r := add_channel 1 initial in
  1%nat ∈ channels (cycle w 0 r) ∧ (1%nat ∉ to_be_removed (cycle w 0 r)) ∧
  ∀ w' n', deliveries_to 1 (sent_since (cycle w 0 r) (cycle w' n' (cycle w 0 r)))
           = [attempt w' n' 1].
Proof.
  cbn zeta. apply open_channel_survives_invalid_state.
  - vm_compute. reflexivity.
  - vm_compute. discriminate.
  - reflexivity.
  - reflexivity.
Defined.

(** X3: the "closing" event of a channel registered by [add_channel] does
    not touch the active set; the next cycle removes the channel, sends it
    nothing, leaves nothing queued for it, and serves every other active
    channel as if nothing had happened. *)
Theorem closing_channel_leaves_at_the_boundary w n r c :
  let r1 := emit c "closing" (add_channel c r) in
  channels r1 = {[c]} ∪ channels r ∧
  (c ∉ channels (cycle w n r1)) ∧
  deliveries_to c (sent_since r1 (cycle w n r1)) = [] ∧
  (c ∉ to_be_removed (cycle w n r1)) ∧
  ∀ c', c' ≠ c → c' ∈ channels r → c' ∉ to_be_removed r →
        deliveries_to c' (sent_since r1 (cycle w n r1)) = [attempt w n c'].
Proof.
  cbn zeta.
  destruct (add_channel_spec c r) as (Hch & Hls & _ & _ & Htbr).
  destruct (emit_spec c "closing" (add_channel c r)) as (Hch1 & _ & _ & _ & Htbr1).
  rewrite decide_True in Htbr1 by (rewrite Hls; set_solver).
  rewrite Hch in Hch1. rewrite Htbr in Htbr1.
  destruct (cycle_spec w n (emit c "closing" (add_channel c r)))
    as (Hch2 & _ & Htbr2 & Hsent & _).
  rewrite (sent_since_app _ _ _ Hsent).
  split; [done|]. split; [rewrite Hch2, Htbr1; set_solver|]. split; [|split].
  - rewrite deliveries_to_attempts by apply NoDup_elements.
    rewrite decide_False; [done|]. rewrite Htbr1. set_solver.
  - rewrite Htbr2, Htbr1. set_solver.
  - intros c' Hne Hin' Hnq'.
    rewrite deliveries_to_attempts by apply NoDup_elements.
    rewrite decide_True; [done|]. rewrite Hch1, Htbr1. set_solver.
Qed.

(** X4: [add_channel] twice on one channel: the active set is the same as
    after one call; the handlers are registered twice, and the "closing"
    event queues the channel all the same. *)
Theorem add_channel_twice r c :
  channels (add_channel c (add_channel c r)) = channels (add_channel c r) ∧
  length (listeners (add_channel c (add_channel c r))) = (4 + length (listeners r))%nat ∧
  to_be_removed (emit c "closing" (add_channel c (add_channel c r)))
  = to_be_removed (emit c "closing" (add_channel c r)).
Proof.
  destruct (add_channel_spec c r) as (Hch & Hls & _ & _ & Htbr).
  destruct (add_channel_spec c (add_channel c r)) as (Hch' & Hls' & _ & _ & Htbr').
  split; [rewrite Hch', Hch; set_solver|]. split.
  - rewrite Hls', Hls, !length_app. cbn. lia.
  - destruct (emit_spec c "closing" (add_channel c r)) as (_ & _ & _ & _ & ->).
    destruct (emit_spec c "closing" (add_channel c (add_channel c r)))
      as (_ & _ & _ & _ & ->).
    rewrite !decide_True; [by rewrite Htbr', Htbr | rewrite Hls; set_solver
                          | rewrite Hls', Hls; set_solver].
Qed.

End CycleFacts.

(** ** Broadcast loop: runs and interleavings *)

Section LoopFacts.
Import FrameClock Broadcast.
Implicit Types (r : registry) (c : channel) (w : world) (n : Z) (s : system).

Lemma apply_event_frame_n s e :
  0 ≤ frame_n s < 65536 → 0 ≤ frame_n (apply_event s e) < 65536.
Proof.
  intros Hn. destruct e; cbn [apply_event tick env_add env_emit frame_n]; [|done|done].
  apply next_frame_n_range.
Qed.

Lemma apply_event_channels s e :
  channels (reg (apply_event s e))
  ⊆ channels (reg s) ∪ (match e with AddChannel c => {[c]} | _ => ∅ end).
Proof.
  destruct e as [w|c|c ev]; cbn [apply_event tick env_add env_emit reg].
  - destruct (cycle_spec w (frame_n s) (reg s)) as (-> & _). set_solver.
  - destruct (add_channel_spec c (reg s)) as (-> & _). set_solver.
  - destruct (emit_spec c ev (reg s)) as (-> & _). set_solver.
Qed.

(** Along a run, the sends go to channels of the starting active set or
    added on the way, with indices in range. *)
Lemma run_sends_to_added es : ∀ s,
  0 ≤ frame_n s < 65536 →
  ∃ new, sent (reg (run es s)) = sent (reg s) ++ new ∧
    Forall (λ d, (d_chan d ∈ channels (reg s) ∨ AddChannel (d_chan d) ∈ es) ∧
                 0 ≤ d_frame d < 65536) new.
Proof.
  induction es as [|e es IH]; intros s Hn.
  - exists []. by rewrite app_nil_r.
  - rewrite run_cons.
    destruct (IH (apply_event s e) (apply_event_frame_n s e Hn)) as (new2 & Hsent2 & Hall2).
    destruct (apply_event_sent s e) as (new1 & Hsent1 & Hnew1).
    exists (new1 ++ new2). rewrite Hsent2, Hsent1, <- app_assoc. split; [done|].
    apply Forall_app. split.
    + destruct e as [w|c|c ev]; subst new1; [|constructor|constructor].
      apply Forall_fmap, Forall_forall. intros c Hc. cbn.
      apply elem_of_elements in Hc. split; [left; set_solver|done].
    + eapply Forall_impl; [exact Hall2|]. intros d [[Hin|Hin] Hfr]; (split; [|done]).
      * apply (apply_event_channels s e), elem_of_union in Hin as [Hin|Hin]; [by left|].
        destruct e as [w|c|c ev]; [set_solver| |set_solver].
        right. apply elem_of_singleton in Hin. rewrite Hin. left.
      * right. by right.
Qed.

(** X5: whatever happens from the start of the program, every call to
    [send] goes to a channel that [add_channel] was called on, with a frame
    index between 0 and 65535. *)
Theorem only_added_channels_are_served (es : list event) :
  Forall (λ d, AddChannel (d_chan d) ∈ es ∧ 0 ≤ d_frame d < 65536)
         (sent (reg (run es boot))).
Proof.
  destruct (run_sends_to_added es boot) as (new & Hsent & Hall).
  { cbn [boot frame_n]. unfold periodic_frames_start. lia. }
  rewrite Hsent. cbn [boot reg initial sent app].
  eapply Forall_impl; [exact Hall|]. intros d [[Hin|Hin] Hfr]; [|done].
  cbn in Hin. set_solver.
Qed.

Lemma crashed_stays w s (k : nat) :
  at_pc s = Crashed → Nat.iter k (loop_step w) s = s.
Proof.
  intros Hpc. induction k as [|k IH]; [done|].
  rewrite Nat.iter_succ, IH. unfold loop_step. by rewrite Hpc.
Qed.

(** X6: the set iterator of the [for] notices a new element: if the other
    thread adds a channel that is not in the active set while the loop is
    delivering, the next statement of the loop raises; from then on the
    loop thread is dead and nothing more is ever sent. *)
Theorem addition_during_delivery_stops_the_loop w s rest used c :
  at_pc s = Delivering rest used →
  size (channels (reg s)) = used →
  c ∉ channels (reg s) →
  ∀ k : nat,
    at_pc (Nat.iter (S k) (loop_step w) (env_add c s)) = Crashed ∧
    sent (reg (Nat.iter (S k) (loop_step w) (env_add c s))) = sent (reg s).
Proof.
  intros Hpc Hsz Hnew k.
  destruct (add_channel_spec c (reg s)) as (Hch & _ & _ & Hsent & _).
  assert (Hstep : loop_step w (env_add c s)
                  = {| frame_n := frame_n s; at_pc := Crashed;
                       reg := add_channel c (reg s) |}).
  { unfold loop_step. cbn [env_add at_pc reg frame_n]. rewrite Hpc.
    rewrite decide_True; [done|].
    rewrite Hch, size_union, size_singleton by set_solver. lia. }
  rewrite Nat.iter_succ_r, Hstep, crashed_stays by done. by cbn.
Qed.

Lemma addition_during_delivery_stops_the_loop_witness :
  let s := Nat.iter 5 (loop_step all_open) (env_add 1 boot) in
  at_pc s = Delivering [1%nat] 1 ∧
  ∀ k : nat,
    at_pc (Nat.iter (S k) (loop_step all_open) (env_add 2 s)) = Crashed ∧
    sent (reg (Nat.iter (S k) (loop_step all_open) (env_add 2 s))) = sent (reg s).
Proof.
  cbn zeta. split; [vm_compute; reflexivity|].
  apply (addition_during_delivery_stops_the_loop all_open _ [1%nat] 1%nat 2%nat).
  - vm_compute. reflexivity.
  - vm_compute. reflexivity.
  - vm_compute. discriminate.
Defined.

(** X7: a channel that announces "closing" while the loop is delivering,
    before its turn, is skipped when its turn comes: the loop moves on
    without calling [send] on it, and it stays queued for the next cycle. *)
Theorem closing_before_the_visit_skips_the_send w s rest used c :
  at_pc s = Delivering (c :: rest) used →
  size (channels (reg s)) = used →
  (c, "closing") ∈ listeners (reg s) →
  let s' := loop_step w (env_emit c "closing" s) in
  at_pc s' = Delivering rest used ∧
  sent (reg s') = sent (reg s) ∧
  c ∈ to_be_removed (reg s') ∧
  channels (reg s') = channels (reg s).
Proof.
  intros Hpc Hsz Hls. cbn zeta.
  destruct (emit_spec c "closing" (reg s)) as (Hch & _ & _ & Hsent & Htbr).
  rewrite decide_True in Htbr by done.
  assert (Hq : c ∈ to_be_removed (emit c "closing" (reg s))) by (rewrite Htbr; set_solver).
  unfold loop_step. cbn [env_emit at_pc reg frame_n]. rewrite Hpc.
  rewrite decide_False by (rewrite Hch; intros ?; done).
  cbn [at_pc reg]. unfold deliver. rewrite decide_True by done. done.
Qed.

Lemma closing_before_the_visit_skips_the_send_witness :
  let s := Nat.iter 5 (loop_step all_open) (env_add 1 boot) in
  let s' := loop_step all_open (env_emit 1 "closing" s) in
  at_pc s' = Delivering [] 1 ∧
  sent (reg s') = sent (reg s) ∧
  1%nat ∈ to_be_removed (reg s') ∧
  channels (reg s') = channels (reg s).
Proof.
  cbn zeta.
  apply (closing_before_the_visit_skips_the_send all_open _ [] 1%nat 1%nat).
  - vm_compute. reflexivity.
  - vm_compute. reflexivity.
  - vm_compute. left.
Defined.

Lemma deliveries_to_elsewhere c (X : gset channel) (l : list delivery) :
  Forall (λ d, d_chan d ∈ X) l → c ∉ X → deliveries_to c l = [].
Proof.
  intros Hall Hc. unfold deliveries_to.
  induction Hall as [|d l Hd Hl IH]; [done|].
  rewrite filter_cons, decide_False by (intros <-; done). done.
Qed.

(** From the length test to the sleep, as long as nobody touches the set:
    the active set is unchanged and the sends go to its channels. *)
Lemma finish_from_pruned w s :
  at_pc s = Pruned →
  ∃ k new, at_pc (Nat.iter k (loop_step w) s) = Sleeping ∧
    channels (reg (Nat.iter k (loop_step w) s)) = channels (reg s) ∧
    sent (reg (Nat.iter k (loop_step w) s)) = sent (reg s) ++ new ∧
    Forall (λ d, d_chan d ∈ channels (reg s)) new.
Proof.
  intros Hpc. destruct s as [n p r]. cbn [at_pc reg] in *. subst p.
  destruct (decide (size (channels r) ≤ 0)%nat) as [Hsz|Hsz].
  - exists 1%nat, []. cbn [Nat.iter nat_rect]. unfold loop_step. cbn [at_pc reg frame_n].
    rewrite decide_True by done. cbn. by rewrite app_nil_r.
  - assert (Hgen : loop_step w {| frame_n := n; at_pc := Pruned; reg := r |}
                   = {| frame_n := n; at_pc := Generated; reg := log_gen n r |}).
    { unfold loop_step. cbn [at_pc reg frame_n]. by rewrite decide_False by done. }
    destruct (finish_from_generated w {| frame_n := n; at_pc := Generated; reg := log_gen n r |}
                eq_refl) as [_ Hrun].
    cbn [reg frame_n] in Hrun.
    destruct (deliver_all w n (elements (channels (log_gen n r))) (log_gen n r)
                (NoDup_elements _)) as (Hch & _ & _ & Hsent & _).
    exists (S (2 + length (elements (channels (log_gen n r)))))%nat,
           (attempt w n <$> filter (λ x, x ∉ to_be_removed (log_gen n r))
                                   (elements (channels (log_gen n r)))).
    rewrite Nat.iter_succ_r, Hgen, Hrun. cbn [at_pc reg].
    rewrite Hch, Hsent. split; [done|]. split; [done|]. split; [done|].
    apply Forall_fmap, Forall_forall. intros c [_ Hc]%list_elem_of_filter. cbn.
    by apply elem_of_elements in Hc.
Qed.

(** X8: the assignment [channels = channels - removing] is not atomic. A
    channel that the other thread adds after the difference is evaluated
    and before it is stored goes into the set that is about to be replaced:
    when the cycle ends it is not in the active set, and it is sent nothing
    in this cycle or later, unless [add_channel] is called on it again. *)
Theorem addition_before_the_store_is_lost w s diff c :
  at_pc s = Subtracted diff → c ∉ diff →
  ∃ k : nat,
    at_pc (Nat.iter k (loop_step w) (env_add c s)) = Sleeping ∧
    (c ∉ channels (reg (Nat.iter k (loop_step w) (env_add c s)))) ∧
    ∀ es, Forall (λ e, ¬ adds c e) es →
      deliveries_to c
        (sent_since (reg s) (reg (run es (Nat.iter k (loop_step w) (env_add c s))))) = [].
Proof.
  intros Hpc Hc.
  destruct (add_channel_spec c (reg s)) as (_ & _ & _ & Hsent0 & _).
  set (s1 := {| frame_n := frame_n s; at_pc := Pruned;
                reg := set_channels diff (add_channel c (reg s)) |}).
  assert (Hstore : loop_step w (env_add c s) = s1).
  { unfold loop_step. cbn [env_add at_pc reg frame_n]. by rewrite Hpc. }
  destruct (finish_from_pruned w s1 eq_refl) as (k & new & Hsleep & Hch & Hsent & Hall).
  exists (S k). rewrite Nat.iter_succ_r, Hstore.
  set (s2 := Nat.iter k (loop_step w) s1) in *.
  assert (Hout : c ∉ channels (reg s2)) by (rewrite Hch; done).
  split; [done|]. split; [done|]. intros es Hes.
  destruct (run_out c es s2 Hout Hes) as (_ & new2 & Hsent2 & Hd2).
  assert (Hall' : sent (reg (run es s2)) = sent (reg s) ++ (new ++ new2)).
  { rewrite Hsent2, Hsent. cbn [s1 reg set_channels sent]. by rewrite Hsent0, <- app_assoc. }
  rewrite (sent_since_app _ _ _ Hall'), deliveries_to_app, Hd2.
  by rewrite (deliveries_to_elsewhere c diff new Hall Hc).
Qed.

Lemma addition_before_the_store_is_lost_witness :
  let s := Nat.iter 2 (loop_step all_open) (env_add 1 boot) in
  ∃ k : nat,
    at_pc (Nat.iter k (loop_step all_open) (env_add 2 s)) = Sleeping ∧
    (2%nat ∉ channels (reg (Nat.iter k (loop_step all_open) (env_add 2 s)))) ∧
    ∀ es, Forall (λ e, ¬ adds 2 e) es →
      deliveries_to 2
        (sent_since (reg s)
           (reg (run es (Nat.iter k (loop_step all_open) (env_add 2 s))))) = [].
Proof.
  cbn zeta.
  apply (addition_before_the_store_is_lost all_open _ {[1%nat]} 2%nat).
  - vm_compute. reflexivity.
  - vm_compute. discriminate.
Defined.

End LoopFacts.

(** ** Channel wiring *)

Section WiringFacts.
Import FrameClock Broadcast Wiring.
Implicit Types (h : hub) (c : channel) (e : hub_event).

(** The loop only sees its own events. *)
Lemma hub_loop_run es : ∀ h,
  loop (hub_run es h) = run (flat_map to_loop_event es) (loop h).
Proof.
  induction es as [|e es IH]; intros h; [done|].
  cbn [hub_run foldl flat_map]. fold (hub_run es (hub_apply h e)).
  rewrite IH, run_app. f_equal.
  destruct e as [label c|c data|c name|w]; cbn [hub_apply to_loop_event]; try done.
  unfold on_datachannel.
  destruct (decide (label = "webscope_data")); [done|].
  destruct (decide (label = "echo")); done.
Qed.

Lemma to_loop_event_add c es :
  AddChannel c ∈ flat_map to_loop_event es → Opened "webscope_data" c ∈ es.
Proof.
  intros Hin. apply list_elem_of_In, in_flat_map in Hin as (e & He & Hin).
  apply list_elem_of_In in He, Hin.
  destruct e as [label c'|c' data|c' name|w]; cbn in Hin.
  - destruct (decide (label = "webscope_data")) as [->|]; [|by apply elem_of_nil in Hin].
    apply list_elem_of_singleton in Hin. by injection Hin as ->.
  - by apply elem_of_nil in Hin.
  - apply list_elem_of_singleton in Hin. discriminate.
  - apply list_elem_of_singleton in Hin. discriminate.
Qed.

(** Along a run, what the echo handlers send. *)
Lemma hub_run_echoes es : ∀ h,
  ∃ new, echoed (hub_run es h) = echoed h ++ new ∧
    Forall (λ p, (p.1 ∈ on_message h ∨ Opened "echo" p.1 ∈ es) ∧ Message p.1 p.2 ∈ es) new.
Proof.
  induction es as [|e es IH]; intros h.
  - exists []. by rewrite app_nil_r.
  - cbn [hub_run foldl]. fold (hub_run es (hub_apply h e)).
    destruct (IH (hub_apply h e)) as (new2 & Hecho2 & Hall2).
    assert (Hstep : ∃ new1, echoed (hub_apply h e) = echoed h ++ new1 ∧
              Forall (λ p, p.1 ∈ on_message h ∧ e = Message p.1 p.2) new1 ∧
              ∀ c, c ∈ on_message (hub_apply h e) →
                   c ∈ on_message h ∨ e = Opened "echo" c).
    { destruct e as [label c|c data|c name|w]; cbn [hub_apply].
      - unfold on_datachannel.
        destruct (decide (label = "webscope_data")).
        { exists []. rewrite app_nil_r. cbn. eauto. }
        destruct (decide (label = "echo")) as [->|].
        + exists []. rewrite app_nil_r. cbn. split; [done|]. split; [done|].
          intros c' [?|Hc]%elem_of_app; [by left|].
          apply list_elem_of_singleton in Hc. subst. by right.
        + exists []. rewrite app_nil_r. eauto.
      - eexists. cbn. split; [done|]. split; [|eauto].
        apply Forall_fmap, Forall_forall.
        intros c' [-> Hc]%list_elem_of_filter. done.
      - exists []. rewrite app_nil_r. cbn. eauto.
      - exists []. rewrite app_nil_r. cbn. eauto. }
    destruct Hstep as (new1 & Hecho1 & Hall1 & Hreg).
    exists (new1 ++ new2). rewrite Hecho2, Hecho1, <- app_assoc. split; [done|].
    apply Forall_app. split.
    + eapply Forall_impl; [exact Hall1|]. intros p [Hp ->]. split; [by left|left].
    + eapply Forall_impl; [exact Hall2|]. intros p [[Hp|Hp] Hm].
      * split; [|by right]. destruct (Hreg _ Hp) as [?| ->]; [by left|right; left].
      * split; [right; by right | by right].
Qed.

(** X9: the two kinds of channels never mix. Whatever channels open and
    whatever they receive, a frame is only ever sent to a channel that was
    opened under the label "webscope_data", and an echo handler only ever
    sends, on a channel opened under the label "echo", a message that this
    very channel received. Channels with any other label get nothing. *)
Theorem frames_and_echoes_do_not_mix (es : list hub_event) :
  Forall (λ d, Opened "webscope_data" (d_chan d) ∈ es)
         (sent (reg (loop (hub_run es hub_start)))) ∧
  Forall (λ p, Opened "echo" p.1 ∈ es ∧ Message p.1 p.2 ∈ es)
         (echoed (hub_run es hub_start)).
Proof.
  split.
  - rewrite hub_loop_run. cbn [hub_start loop].
    destruct (run_sends_to_added (flat_map to_loop_event es) boot) as (new & Hsent & Hall).
    { cbn [boot frame_n]. unfold periodic_frames_start. lia. }
    rewrite Hsent. cbn [boot reg initial sent app].
    eapply Forall_impl; [exact Hall|]. intros d [[Hin|Hin] _].
    + cbn in Hin. set_solver.
    + by apply to_loop_event_add.
  - destruct (hub_run_echoes es hub_start) as (new & Hecho & Hall).
    rewrite Hecho. cbn [hub_start echoed app].
    eapply Forall_impl; [exact Hall|]. intros p [[Hin|Hin] Hm]; [|done].
    cbn in Hin. by apply elem_of_nil in Hin.
Qed.

Lemma filter_eq_absent (l : list channel) c :
  c ∉ l → filter (λ x, x = c) l = [].
Proof.
  induction l as [|x l IH]; intros Hc; [done|].
  rewrite filter_cons, decide_False by (intros ->; apply Hc; left).
  apply IH. intros ?. apply Hc. by right.
Qed.

(** X10: on a channel opened under the label "echo" that had no handler
    yet, a message is sent back once, on the same channel, as it came
    (text stays text, bytes stay bytes); opening it and echoing leave the
    broadcast loop untouched; a message on a channel without handler is
    not answered. *)
Theorem echo_sends_the_message_back h c :
  c ∉ on_message h →
  let h1 := on_datachannel "echo" c h in
  loop h1 = loop h ∧
  ∀ data,
    echoed (on_message_event c data h1) = echoed h ++ [(c, data)] ∧
    loop (on_message_event c data h1) = loop h ∧
    ∀ c', c' ≠ c → c' ∉ on_message h →
          echoed (on_message_event c' data h1) = echoed h.
Proof.
  intros Hnew. cbn zeta. unfold on_datachannel.
  rewrite decide_False by discriminate. rewrite decide_True by done.
  split; [done|]. intros data. unfold on_message_event. cbn [loop on_message echoed].
  pose proof (filter_eq_absent (on_message h)) as Hnone.
  split; [|split; [done|]].
  - rewrite filter_app, (Hnone c Hnew). cbn. by rewrite decide_True.
  - intros c' Hne Hc'. rewrite filter_app, (Hnone c' Hc'). cbn.
    rewrite decide_False by done. cbn. by rewrite app_nil_r.
Qed.

Lemma echo_sends_the_message_back_witness :
  let h := on_datachannel "webscope_data" 1 hub_start in
  let h1 := on_datachannel "echo" 2 h in
  loop h1 = loop h ∧
  ∀ data,
    echoed (on_message_event 2 data h1) = echoed h ++ [(2%nat, data)] ∧
    loop (on_message_event 2 data h1) = loop h ∧
    ∀ c', c' ≠ 2%nat → c' ∉ on_message h →
          echoed (on_message_event c' data h1) = echoed h.
Proof.
  cbn zeta. apply echo_sends_the_message_back. vm_compute. apply not_elem_of_nil.
Defined.

End WiringFacts.

(** ** The loop over plain callables *)

Section ForeverFacts.
Import FrameClock Forever.

Lemma call_each_returning (returns : nat → bool) n : ∀ (count k : nat) trace,
  (∀ j, (k ≤ j < k + count)%nat → returns j = true) →
  call_each returns n k count trace = (trace ++ ((λ j, (j, n)) <$> seq k count), true).
Proof.
  induction count as [|count IH]; intros k trace Hall; cbn [call_each seq fmap list_fmap].
  - by rewrite app_nil_r.
  - rewrite Hall by lia. rewrite IH by (intros j Hj; apply Hall; lia).
    by rewrite <- app_assoc.
Qed.

Lemma frames_of_app k (l1 l2 : list (nat * Z)) :
  frames_of k (l1 ++ l2) = frames_of k l1 ++ frames_of k l2.
Proof. unfold frames_of. by rewrite filter_app, fmap_app. Qed.

Lemma frames_of_round n (k count : nat) :
  (k < count)%nat → frames_of k ((λ j, (j, n)) <$> seq 0 count) = [n].
Proof.
  intros Hk. unfold frames_of.
  replace count with (k + S (count - S k))%nat by lia.
  rewrite seq_app, fmap_app, filter_app. cbn [seq fmap list_fmap].
  rewrite filter_cons_True by done.
  assert (Hnone : ∀ (l : list nat), k ∉ l →
            filter (λ p : nat * Z, p.1 = k) ((λ j, (j, n)) <$> l) = []).
  { induction l as [|x l IH]; intros Hl; [done|]. cbn [fmap list_fmap].
    rewrite filter_cons_False by (cbn; intros ->; apply Hl; left).
    apply IH. intros ?. apply Hl. by right. }
  rewrite !Hnone; [done| |].
  - intros Hin%elem_of_seq. lia.
  - intros Hin%elem_of_seq. lia.
Qed.

(** The callables all return: one iteration after the other. *)
Lemma iterations_returning (count : nat) (rs : list (nat → bool)) : ∀ st,
  running st = true →
  Forall (λ returns, ∀ j, (j < count)%nat → returns j = true) rs →
  let st' := iterations count rs st in
  running st' = true ∧
  frame_n st' = Nat.iter (length rs) next_frame_n (frame_n st) ∧
  gen_calls st'
  = gen_calls st ++ (if decide (count ≤ 0)%nat then []
                     else Broadcast.clock_from (frame_n st) (length rs)) ∧
  ∀ k, (k < count)%nat →
       frames_of k (calls st')
       = frames_of k (calls st) ++ Broadcast.clock_from (frame_n st) (length rs).
Proof.
  induction rs as [|returns rs IH]; intros st Hrun Hall; cbn zeta.
  - cbn. split; [done|]. split; [done|]. split.
    + destruct (decide (count ≤ 0)%nat); by rewrite app_nil_r.
    + intros k _. by rewrite app_nil_r.
  - apply Forall_cons in Hall as [Hret Hall].
    cbn [iterations foldl]. fold (iterations count rs (iteration count returns st)).
    assert (Hstep : running (iteration count returns st) = true ∧
              frame_n (iteration count returns st) = next_frame_n (frame_n st) ∧
              gen_calls (iteration count returns st)
              = gen_calls st ++ (if decide (count ≤ 0)%nat then [] else [frame_n st]) ∧
              calls (iteration count returns st)
              = calls st ++ ((λ j, (j, frame_n st)) <$> seq 0 count)).
    { unfold iteration. rewrite Hrun.
      destruct (decide (count ≤ 0)%nat) as [Hz|Hz].
      - assert (count = 0%nat) as -> by lia. cbn. by rewrite !app_nil_r.
      - rewrite call_each_returning by (intros j Hj; apply Hret; lia). done. }
    destruct Hstep as (Hrun1 & Hn1 & Hgen1 & Hcalls1).
    destruct (IH _ Hrun1 Hall) as (Hrun2 & Hn2 & Hgen2 & Hcalls2).
    split; [done|]. split; [|split].
    + rewrite Hn2, Hn1. cbn [length]. by rewrite Nat.iter_succ_r.
    + rewrite Hgen2, Hgen1, Hn1, <- app_assoc. cbn [length Broadcast.clock_from].
      by destruct (decide (count ≤ 0)%nat).
    + intros k Hk. rewrite (Hcalls2 k Hk), Hcalls1, Hn1, frames_of_app.
      rewrite frames_of_round by done. by rewrite <- app_assoc.
Qed.

(** X11: [send_frames_forever] with callables that return. With no
    callable at all, [gen_frame] is never called and nothing is sent, and
    the clock still advances; with at least one, [gen_frame] is called once
    per iteration with the indices of the clock in order, and every
    callable is called once per iteration with these frames in that order. *)
Theorem forever_serves_every_callable (count : nat) (rs : list (nat → bool)) :
  Forall (λ returns, ∀ j, (j < count)%nat → returns j = true) rs →
  let st := iterations count rs start in
  running st = true ∧
  frame_n st = periodic_frames (length rs) ∧
  gen_calls st = (if decide (count ≤ 0)%nat then []
                  else Broadcast.clock_from periodic_frames_start (length rs)) ∧
  (count = 0%nat → calls st = []) ∧
  ∀ k, (k < count)%nat →
       frames_of k (calls st) = Broadcast.clock_from periodic_frames_start (length rs).
Proof.
  intros Hall.
  destruct (iterations_returning count rs start eq_refl Hall) as (Hrun & Hn & Hgen & Hcalls).
  cbn zeta. split; [done|]. split; [|split; [done|split; [|done]]].
  - rewrite Hn. cbn [start frame_n]. unfold periodic_frames_start.
    apply iter_next_frame_n.
  - intros ->. clear Hrun Hn Hgen Hcalls.
    assert (Hnone : ∀ st, calls (iterations 0 rs st) = calls st).
    { induction rs as [|returns rs IH]; intros st; [done|].
      apply Forall_cons in Hall as [_ Hall].
      cbn [iterations foldl]. fold (iterations 0 rs (iteration 0 returns st)).
      rewrite (IH Hall). unfold iteration. destruct (running st); [|done].
      by rewrite decide_True by lia. }
    by rewrite Hnone.
Qed.

Lemma forever_serves_every_callable_witness :
  let rs := [λ _ : nat, true; λ _ : nat, true; λ _ : nat, true] in
  let st := iterations 2 rs start in
  running st = true ∧
  frame_n st = periodic_frames (length rs) ∧
  gen_calls st = (if decide (2 ≤ 0)%nat then []
                  else Broadcast.clock_from periodic_frames_start (length rs)) ∧
  (2%nat = 0%nat → calls st = []) ∧
  ∀ k, (k < 2)%nat →
       frames_of k (calls st) = Broadcast.clock_from periodic_frames_start (length rs).
Proof.
  cbn zeta. apply forever_serves_every_callable. repeat constructor.
Defined.

Lemma stopped_stays (count : nat) (rs : list (nat → bool)) : ∀ st,
  running st = false → iterations count rs st = st.
Proof.
  induction rs as [|returns rs IH]; intros st Hst; [done|].
  cbn [iterations foldl]. fold (iterations count rs (iteration count returns st)).
  assert (iteration count returns st = st) as -> by (unfold iteration; by rewrite Hst).
  by apply IH.
Qed.

Lemma call_each_raising (returns : nat → bool) n : ∀ (count k j : nat) trace,
  (k ≤ j < k + count)%nat → returns j = false →
  (∀ i, (k ≤ i < j)%nat → returns i = true) →
  call_each returns n k count trace
  = (trace ++ ((λ i, (i, n)) <$> seq k (S (j - k))), false).
Proof.
  induction count as [|count IH]; intros k j trace Hj Hfalse Hbefore; [lia|].
  cbn [call_each]. destruct (decide (j = k)) as [->|Hne].
  - rewrite Hfalse. by rewrite Nat.sub_diag.
  - rewrite Hbefore by lia.
    rewrite (IH (S k) j) by (try done; try lia; intros i Hi; apply Hbefore; lia).
    replace (S (j - k)) with (S (S (j - S k))) by lia.
    cbn [seq fmap list_fmap]. by rewrite <- app_assoc.
Qed.

(** X12: nothing in [send_frames_forever] catches what a callable raises.
    When the callable at position [j] raises, [gen_frame] has been called,
    the callables before it have been called with the frame, those after
    it are not, and the coroutine is over: no later iteration generates or
    sends anything. *)
Theorem forever_stops_at_the_first_exception (count j : nat) (returns : nat → bool)
    (st : state) :
  running st = true → (j < count)%nat →
  returns j = false → (∀ i, (i < j)%nat → returns i = true) →
  let st' := iteration count returns st in
  running st' = false ∧
  gen_calls st' = gen_calls st ++ [frame_n st] ∧
  calls st' = calls st ++ ((λ i, (i, frame_n st)) <$> seq 0 (S j)) ∧
  ∀ rs, iterations count rs st' = st'.
Proof.
  intros Hrun Hj Hfalse Hbefore. cbn zeta.
  assert (Hstep : iteration count returns st
            = {| frame_n := frame_n st; running := false;
                 gen_calls := gen_calls st ++ [frame_n st];
                 calls := calls st ++ ((λ i, (i, frame_n st)) <$> seq 0 (S j)) |}).
  { unfold iteration. rewrite Hrun, decide_False by lia.
    rewrite (call_each_raising returns (frame_n st) count 0 j)
      by (try done; try lia; intros i Hi; apply Hbefore; lia).
    by rewrite Nat.sub_0_r. }
  rewrite Hstep. cbn [running gen_calls calls]. split; [done|]. split; [done|].
  split; [done|]. intros rs. by apply stopped_stays.
Qed.

Lemma forever_stops_at_the_first_exception_witness :
  let returns : nat → bool := λ i, negb (i =? 1)%nat in
  let st' := iteration 3 returns start in
  running st' = false ∧
  gen_calls st' = gen_calls start ++ [frame_n start] ∧
  calls st' = calls start ++ ((λ i, (i, frame_n start)) <$> seq 0 (S 1)) ∧
  ∀ rs, iterations 3 rs st' = st'.
Proof.
  cbn zeta.
  apply (forever_stops_at_the_first_exception 3 1 (λ i, negb (i =? 1)%nat) start).
  - reflexivity.
  - lia.
  - reflexivity.
  - intros i Hi. assert (i = 0%nat) as -> by lia. reflexivity.
Defined.

End ForeverFacts.

(** ** Clock: pacing and indices *)

Section ClockFacts.
Import FrameClock Pacing.

(** X13: the delay given to [asyncio.sleep] is never negative and never a
    NaN, whatever the interval and the measured time are (negative,
    infinite or NaN included): the comparison [0 <= delay] holds. *)
Theorem sleep_delay_is_not_negative (interval time_taken : float) :
  PrimFloat.leb PrimFloat.zero (sleep_delay interval time_taken) = true.
Proof.
  unfold sleep_delay. cbn zeta.
  destruct (PrimFloat.ltb PrimFloat.zero (PrimFloat.sub interval time_taken)) eqn:Hlt.
  - rewrite FloatAxioms.ltb_spec in Hlt. rewrite FloatAxioms.leb_spec.
    unfold SFltb in Hlt. unfold SFleb.
    by destruct (SFcompare _ _) as [[]|].
  - reflexivity.
Qed.

(** X14: two ticks less than 65536 apart never carry the same index: a
    receiver that sees an index again knows that at least 65536 frames
    lie in between. *)
Theorem close_ticks_have_distinct_indices (j k : nat) :
  Z.of_nat j < Z.of_nat k < Z.of_nat j + 65536 →
  periodic_frames j ≠ periodic_frames k.
Proof.
  intros Hjk. rewrite !periodic_frames_closed. intros Heq.
  assert (Hdiv : (Z.of_nat k - Z.of_nat j) mod 65536 = 0).
  { rewrite Zminus_mod, Heq, Z.sub_diag. reflexivity. }
  rewrite Z.mod_small in Hdiv by lia. lia.
Qed.

Lemma close_ticks_have_distinct_indices_witness :
  periodic_frames (Z.to_nat 65535) ≠ periodic_frames (Z.to_nat 65536).
Proof. apply close_ticks_have_distinct_indices. lia. Defined.

End ClockFacts.

(** ** Connection manager: sessions over time *)

Section SessionFacts.
Import Signaling.
Variable parse_uuid : string → option uuid.
Implicit Types (m : manager) (req : payload) (fresh : uuid).

(** X15: the id under which a first offer registers its session is accepted
    by a later offer that carries it: that offer is answered under the same
    id and changes nothing in the manager (no new connection, no new id).
    This holds also when the negotiation of the first offer failed: the
    session stays registered. *)
Theorem session_id_is_accepted_later m req1 info1 fresh answer1 req2 info2 sid fresh2 desc :
  parse_request req1 = Some info1 → info_id info1 = None →
  parse_request req2 = Some info2 → info_id info2 = Some sid →
  parse_uuid sid = Some fresh →
  let m1 := (offer parse_uuid m req1 fresh answer1).2 in
  connections m1 !! fresh = Some (peers m) ∧
  offer parse_uuid m1 req2 fresh2 (Some desc) = (Answer desc fresh, m1).
Proof.
  intros Hreq1 Hid1 Hreq2 Hid2 Hsid. cbn zeta.
  assert (Hm1 : (offer parse_uuid m req1 fresh answer1).2
                = {| connections := <[fresh := peers m]> (connections m);
                     peers := S (peers m);
                     handlers := handlers m ++ [(fresh, peers m)];
                     closes := closes m |}).
  { unfold offer. rewrite Hreq1, Hid1. by rewrite negotiate_state. }
  rewrite Hm1. cbn [connections]. rewrite lookup_insert_eq. split; [done|].
  unfold offer. rewrite Hreq2, Hid2, Hsid. cbn [connections].
  by rewrite lookup_insert_eq.
Qed.

End SessionFacts.

Lemma session_id_is_accepted_later_witness :
  let sid := "00000000-0000-0000-0000-000000000007" in
  let m1 := (Signaling.offer Signaling.hex_uuid Signaling.start
               Signaling.first_offer 7%N None).2 in
  Signaling.connections m1 !! 7%N = Some (Signaling.peers Signaling.start) ∧
  Signaling.offer Signaling.hex_uuid m1 (Signaling.offer_for sid) 9%N
    (Some Signaling.an_answer)
  = (Signaling.Answer Signaling.an_answer 7%N, m1).
Proof.
  cbn zeta.
  apply (session_id_is_accepted_later Signaling.hex_uuid Signaling.start
           Signaling.first_offer
           {| Signaling.info_sdp := "v=0"; Signaling.info_type := "offer";
              Signaling.info_id := None |}
           7%N None
           (Signaling.offer_for "00000000-0000-0000-0000-000000000007")
           {| Signaling.info_sdp := "v=0"; Signaling.info_type := "offer";
              Signaling.info_id := Some "00000000-0000-0000-0000-000000000007" |}
           "00000000-0000-0000-0000-000000000007").
  - vm_compute. reflexivity.
  - reflexivity.
  - vm_compute. reflexivity.
  - reflexivity.
  - vm_compute. reflexivity.
Defined.

Section SessionFacts2.
Import Signaling.
Variable parse_uuid : string → option uuid.
Implicit Types (m : manager) (req : payload) (fresh : uuid).

(** X16: a first offer under an id that is not tracked yet adds exactly one
    session: every session tracked before is still tracked, under its id
    and with its own connection, and the connection of the new session is
    none of theirs. *)
Theorem new_session_shares_no_connection m req info fresh answer :
  well_formed m →
  parse_request req = Some info → info_id info = None →
  connections m !! fresh = None →
  let m1 := (offer parse_uuid m req fresh answer).2 in
  size (connections m1) = S (size (connections m)) ∧
  (∀ id p, connections m !! id = Some p →
           connections m1 !! id = Some p ∧ connections m1 !! fresh ≠ Some p) ∧
  well_formed m1.
Proof.
  intros Hwf Hreq Hid Hfresh. cbn zeta.
  pose proof (offer_well_formed parse_uuid m req fresh answer Hwf) as Hwf1.
  assert (Hm1 : connections (offer parse_uuid m req fresh answer).2
                = <[fresh := peers m]> (connections m)).
  { unfold offer. rewrite Hreq, Hid. by rewrite negotiate_state. }
  rewrite Hm1. split; [by apply map_size_insert_None|]. split; [|done].
  intros id p Hp. destruct Hwf as [_ Hbound].
  assert (id ≠ fresh) by (intros ->; congruence).
  rewrite lookup_insert_ne by done. split; [done|].
  rewrite lookup_insert_eq. intros [= <-]. apply Hbound in Hp. lia.
Qed.

(** What every operation of the manager keeps. *)
Lemma serve_keeps m q :
  well_formed m ∧
  (∀ id p, connections m !! id = Some p → (id, p) ∈ handlers m) ∧
  (∀ id p, (id, p) ∈ handlers m → (p < peers m)%nat) ∧
  Forall (λ p, (p < peers m)%nat) (closes m) →
  well_formed (serve parse_uuid m q) ∧
  (∀ id p, connections (serve parse_uuid m q) !! id = Some p →
           (id, p) ∈ handlers (serve parse_uuid m q)) ∧
  (∀ id p, (id, p) ∈ handlers (serve parse_uuid m q) →
           (p < peers (serve parse_uuid m q))%nat) ∧
  Forall (λ p, (p < peers (serve parse_uuid m q))%nat) (closes (serve parse_uuid m q)).
Proof.
  intros (Hwf & Hreg & Hcreated & Hclosed).
  split; [by apply serve_well_formed|].
  destruct q as [req fresh answer|id p|]; cbn [serve].
  - unfold offer.
    destruct (parse_request req) as [info|]; [|done].
    destruct (info_id info) as [sid|].
    + destruct (parse_uuid sid) as [id|]; [|done].
      destruct (connections m !! id); [|done]. by rewrite negotiate_state.
    + rewrite negotiate_state. cbn [connections handlers peers closes].
      split; [|split].
      * intros id p [[<- <-]|[_ Hp]]%lookup_insert_Some; [set_solver|].
        apply elem_of_app. left. by apply Hreg.
      * intros id p [Hin|Hin]%elem_of_app.
        -- apply Hcreated in Hin. lia.
        -- apply list_elem_of_singleton in Hin. injection Hin as -> ->. lia.
      * eapply Forall_impl; [exact Hclosed|]. cbn. lia.
  - unfold on_constate. case_decide as Hh; [|done].
    cbn [connections handlers peers closes]. split; [|split; [done|]].
    + intros i q [_ Hq]%lookup_delete_Some. by apply Hreg.
    + apply Forall_app. split; [done|]. constructor; [|done]. by eapply Hcreated.
  - cbn [on_shutdown connections handlers peers closes]. split; [|split; [done|]].
    + intros i q Hq. by rewrite lookup_empty in Hq.
    + apply Forall_app. split; [done|].
      apply Forall_fmap, Forall_forall. intros [i q] Hq%elem_of_map_to_list. cbn.
      destruct Hwf as [_ Hbound]. by eapply Hbound.
Qed.

(** X17: in every state the manager can reach, whatever the offers,
    failures and shutdowns were: no connection is tracked under two ids,
    every tracked session has its failure handler registered, and
    [close()] has only been called on connections that [offer] created. *)
Theorem manager_invariant (qs : list request) :
  let m := serve_all parse_uuid qs start in
  well_formed m ∧
  (∀ id p, connections m !! id = Some p → (id, p) ∈ handlers m) ∧
  (∀ id p, (id, p) ∈ handlers m → (p < peers m)%nat) ∧
  Forall (λ p, (p < peers m)%nat) (closes m).
Proof.
  cbn zeta.
  assert (Hgen : ∀ m,
    well_formed m ∧
    (∀ id p, connections m !! id = Some p → (id, p) ∈ handlers m) ∧
    (∀ id p, (id, p) ∈ handlers m → (p < peers m)%nat) ∧
    Forall (λ p, (p < peers m)%nat) (closes m) →
    well_formed (serve_all parse_uuid qs m) ∧
    (∀ id p, connections (serve_all parse_uuid qs m) !! id = Some p →
             (id, p) ∈ handlers (serve_all parse_uuid qs m)) ∧
    (∀ id p, (id, p) ∈ handlers (serve_all parse_uuid qs m) →
             (p < peers (serve_all parse_uuid qs m))%nat) ∧
    Forall (λ p, (p < peers (serve_all parse_uuid qs m))%nat)
           (closes (serve_all parse_uuid qs m))).
  { induction qs as [|q qs IH]; intros m Hm; [done|].
    cbn [serve_all foldl]. apply IH. by apply serve_keeps. }
  apply Hgen. split; [apply start_well_formed|]. cbn. split; [|split; [|done]].
  - intros id p Hp. by rewrite lookup_empty in Hp.
  - intros id p Hin. by apply elem_of_nil in Hin.
Qed.

(** X18: when the transport reports a tracked session as failed, its
    connection is closed once and its id is forgotten, the other sessions
    stay; a shutdown afterwards does not close that connection again, and
    an offer that still carries the id ends with [KeyError] and changes
    nothing. *)
Theorem failed_session_is_evicted m id p :
  well_formed m →
  connections m !! id = Some p → (id, p) ∈ handlers m →
  let m' := on_constate id p m in
  connections m' = delete id (connections m) ∧
  closes_since m m' = [p] ∧
  (p ∉ closes_since m' (on_shutdown m')) ∧
  ∀ req info sid fresh answer,
    parse_request req = Some info → info_id info = Some sid →
    parse_uuid sid = Some id →
    offer parse_uuid m' req fresh answer = (Failure KeyError, m').
Proof.
  intros [Hinj _] Hp Hh. cbn zeta. unfold on_constate. rewrite decide_True by done.
  split; [done|]. split; [|split].
  - unfold closes_since. cbn [closes]. apply drop_app_length.
  - unfold closes_since, on_shutdown. cbn [closes connections].
    rewrite drop_app_length.
    intros ([i q] & Hq & Hin%elem_of_map_to_list)%list_elem_of_fmap. cbn in Hq. subst q.
    apply lookup_delete_Some in Hin as [Hne Hin]. apply Hne. by eapply Hinj.
  - intros req info sid fresh answer Hreq Hid Hsid.
    unfold offer. rewrite Hreq, Hid, Hsid. cbn [connections].
    by rewrite lookup_delete_eq.
Qed.

(** X19: after [on_shutdown] no id is known any more: every offer that
    carries an id ends with [ValueError] or [KeyError] and changes
    nothing; and a second [on_shutdown] closes nothing and changes
    nothing. *)
Theorem shutdown_forgets_every_session m :
  (∀ req info sid fresh answer,
     parse_request req = Some info → info_id info = Some sid →
     ∃ e, offer parse_uuid (on_shutdown m) req fresh answer = (Failure e, on_shutdown m) ∧
          (e = ValueError ∨ e = KeyError)) ∧
  closes_since (on_shutdown m) (on_shutdown (on_shutdown m)) = [] ∧
  on_shutdown (on_shutdown m) = on_shutdown m.
Proof.
  split; [|split].
  - intros req info sid fresh answer Hreq Hid. unfold offer. rewrite Hreq, Hid.
    destruct (parse_uuid sid) as [id|]; [|eauto].
    cbn [on_shutdown connections]. rewrite lookup_empty. eauto.
  - unfold closes_since, on_shutdown. cbn [closes connections].
    by rewrite map_to_list_empty, app_nil_r, drop_all.
  - unfold on_shutdown. cbn [closes connections peers handlers].
    by rewrite map_to_list_empty, app_nil_r.
Qed.

End SessionFacts2.

Lemma new_session_shares_no_connection_witness :
  let m := (Signaling.offer Signaling.hex_uuid Signaling.start
              Signaling.first_offer 7%N (Some Signaling.an_answer)).2 in
  let m1 := (Signaling.offer Signaling.hex_uuid m Signaling.first_offer 8%N None).2 in
  size (Signaling.connections m1) = S (size (Signaling.connections m)) ∧
  (∀ id p, Signaling.connections m !! id = Some p →
           Signaling.connections m1 !! id = Some p ∧
           Signaling.connections m1 !! 8%N ≠ Some p) ∧
  Signaling.well_formed m1.
Proof.
  cbn zeta.
  apply (new_session_shares_no_connection Signaling.hex_uuid _ Signaling.first_offer
           {| Signaling.info_sdp := "v=0"; Signaling.info_type := "offer";
              Signaling.info_id := None |}).
  - apply offer_well_formed, start_well_formed.
  - vm_compute. reflexivity.
  - reflexivity.
  - vm_compute. reflexivity.
Defined.

Lemma failed_session_is_evicted_witness :
  let m := (Signaling.offer Signaling.hex_uuid Signaling.start
              Signaling.first_offer 7%N (Some Signaling.an_answer)).2 in
  let m' := Signaling.on_constate 7%N 0%nat m in
  Signaling.connections m' = delete 7%N (Signaling.connections m) ∧
  Signaling.closes_since m m' = [0%nat] ∧
  (0%nat ∉ Signaling.closes_since m' (Signaling.on_shutdown m')) ∧
  ∀ req info sid fresh answer,
    Signaling.parse_request req = Some info → Signaling.info_id info = Some sid →
    Signaling.hex_uuid sid = Some 7%N →
    Signaling.offer Signaling.hex_uuid m' req fresh answer
    = (Signaling.Failure Signaling.KeyError, m').
Proof.
  cbn zeta. apply (failed_session_is_evicted Signaling.hex_uuid).
  - apply offer_well_formed, start_well_formed.
  - vm_compute. reflexivity.
  - vm_compute. left.
Defined.

(** ** Frame generator: any arrays, any index that fits 64 bits *)

Section PayloadFacts.
Import FrameGen.
Variable order : byteorder.
Variable np_sin : float → float.

Lemma le_bytes_range (w : nat) : ∀ v, Forall (λ b, 0 ≤ b < 256) (le_bytes w v).
Proof.
  induction w as [|w IH]; intros v; cbn [le_bytes]; constructor; [|apply IH].
  apply Z.mod_pos_bound. lia.
Qed.

Lemma tobytes_range (w : nat) (v : Z) : Forall (λ b, 0 ≤ b < 256) (tobytes order w v).
Proof.
  destruct order; cbn; [apply le_bytes_range|].
  apply Forall_forall. intros b Hb%list_elem_of_In%in_rev%list_elem_of_In.
  by eapply (proj1 (Forall_forall _ _) (le_bytes_range w v)).
Qed.

Lemma pairs_bytes_range (dt y : list float) :
  Forall (λ b, 0 ≤ b < 256) (pairs_bytes order dt y).
Proof.
  unfold pairs_bytes. induction (zip dt y) as [|p l IH]; [constructor|].
  cbn [flat_map]. rewrite !Forall_app. split; [split|done]; apply tobytes_range.
Qed.

(** X20: [frame_from_arrays] on any two arrays that hold no NaN and any
    integer index. It raises exactly when the index fits neither a signed
    nor an unsigned 64-bit integer, or the arrays differ in length.
    Otherwise the payload has 2 + 16 * len bytes, each between 0 and 255;
    its first two bytes read back as the index modulo 65536 (negative
    indices included), so two indices 65536 apart get the same prefix; and
    the [k]-th pair is [dt[k]] on 8 bytes followed by [y[k]] on 8 bytes,
    which read back as these two values. *)
Theorem frame_from_arrays_spec (dt y : list float) (frame_n : Z) :
  Forall (λ x, PrimFloat.is_nan x = false) (dt ++ y) →
  (frame_from_arrays order dt y frame_n = None ↔
     ¬ (- 2 ^ 63 ≤ frame_n < 2 ^ 64) ∨ length dt ≠ length y) ∧
  (- 2 ^ 63 ≤ frame_n < 2 ^ 64 → length dt = length y →
   ∃ payload,
     frame_from_arrays order dt y frame_n = Some payload ∧
     length payload = (2 + 16 * length dt)%nat ∧
     Forall (λ b, 0 ≤ b < 256) payload ∧
     frombytes order (take 2 payload) = frame_n mod 65536 ∧
     (∀ payload', frame_from_arrays order dt y (frame_n + 65536) = Some payload' →
                  take 2 payload' = take 2 payload) ∧
     ∀ (k : nat) (d v : float),
       dt !! k = Some d → y !! k = Some v →
       take 8 (drop (2 + 16 * k) payload) = float64_bytes order d ∧
       take 8 (drop (2 + 16 * k + 8) payload) = float64_bytes order v ∧
       float64_frombytes order (take 8 (drop (2 + 16 * k) payload)) = d ∧
       float64_frombytes order (take 8 (drop (2 + 16 * k + 8) payload)) = v).
Proof.
  intros _. unfold frame_from_arrays. split.
  - destruct (decide (- 2 ^ 63 ≤ frame_n < 2 ^ 64)) as [Hin|Hout].
    + rewrite (astype_H_in_range _ Hin).
      destruct (Nat.eqb_spec (length dt) (length y)) as [Heq|Hne].
      * split; [done|]. intros [Hout|Hne]; done.
      * split; [by right | done].
    + rewrite (astype_H_out_of_range _ Hout). split; [by left | done].
  - intros Hin Hlen. rewrite (astype_H_in_range _ Hin), Hlen, Nat.eqb_refl.
    eexists. split; [done|].
    assert (Hprefix : ∀ h, length (tobytes order 2 h) = 2%nat)
      by (intros; apply tobytes_length).
    split; [|split; [|split; [|split]]].
    + rewrite length_app, Hprefix. unfold pairs_bytes.
      rewrite (flat_map_chunks_length _ 16 (pair_bytes_length order)).
      rewrite length_zip_with, Hlen. lia.
    + apply Forall_app. split; [apply tobytes_range | apply pairs_bytes_range].
    + rewrite take_app_length' by done. rewrite frombytes_tobytes.
      change (2 ^ (8 * Z.of_nat 2)) with 65536. apply Z.mod_mod. lia.
    + intros payload'. destruct (astype_H (frame_n + 65536)) as [h|] eqn:Hh; [|done].
      intros [= <-]. rewrite !take_app_length' by done. f_equal.
      unfold astype_H in Hh. destruct (_ && _) in Hh; [|done].
      injection Hh as <-. change (2 ^ 16) with 65536.
      replace (frame_n + 65536) with (frame_n + 1 * 65536) by lia.
      by rewrite Z_mod_plus_full.
    + intros k d v Hd Hv.
      replace (2 + 16 * k + 8)%nat with (2 + (16 * k + 8))%nat by lia.
      rewrite <- (drop_drop _ _ 2), <- (drop_drop _ (16 * k + 8) 2).
      rewrite !drop_app_length' by done.
      destruct (pairs_bytes_chunk order dt y k d v Hd Hv) as [-> ->].
      by rewrite !float64_frombytes_float64_bytes.
Qed.

(** X21: on the indices the clock yields, the envelope is the exact
    binary64 value [(i mod 64) / 64 + 0.5]; it is at least 0.5 and less
    than 1.5, and it is 0.5 exactly on the multiples of 64. *)
Theorem amplitude_range (i : Z) :
  0 ≤ i < 65536 →
  amplitude i = PrimFloat.add (PrimFloat.div (of_int (i mod 64)) (of_int 64)) 0.5 ∧
  PrimFloat.leb 0.5 (amplitude i) = true ∧
  PrimFloat.ltb (amplitude i) 1.5 = true ∧
  (i mod 64 = 0 → amplitude i = 0.5%float).
Proof.
  intros Hi. rewrite amplitude_closed_form by lia.
  assert (Hk : 0 ≤ i mod 64 < 0 + Z.of_nat 64) by (apply Z.mod_pos_bound; lia).
  split; [done|].
  pose proof (all_from_spec
    (λ k, let a := PrimFloat.add (PrimFloat.div (of_int k) (of_int 64)) 0.5 in
          PrimFloat.leb 0.5 a && PrimFloat.ltb a 1.5)
    64 0 eq_refl (i mod 64) Hk) as Hcheck.
  cbn zeta in Hcheck. apply andb_prop in Hcheck as [Hle Hlt].
  split; [done|]. split; [done|]. intros ->. reflexivity.
Qed.

Lemma amplitude_range_witness :
  amplitude 130 = PrimFloat.add (PrimFloat.div (of_int (130 mod 64)) (of_int 64)) 0.5 ∧
  PrimFloat.leb 0.5 (amplitude 130) = true ∧
  PrimFloat.ltb (amplitude 130) 1.5 = true ∧
  (130 mod 64 = 0 → amplitude 130 = 0.5%float).
Proof. apply amplitude_range. lia. Defined.

(** X22: the frame index only reaches the payload through the prefix and
    the samples: the bytes of the time deltas, the first 8 of every pair,
    are the same in the frames of any two indices that [gen_frame] accepts,
    those that fit a signed or an unsigned 64-bit integer. *)
Theorem deltas_do_not_depend_on_the_index (i j : Z) :
  - 2 ^ 63 ≤ i < 2 ^ 64 → - 2 ^ 63 ≤ j < 2 ^ 64 →
  ∃ p q, gen_frame order np_sin i = Some p ∧ gen_frame order np_sin j = Some q ∧
    length p = length q ∧
    ∀ k : nat, (k < 1000)%nat →
      take 8 (drop (2 + 16 * k) p) = take 8 (drop (2 + 16 * k) q).
Proof.
  intros Hi Hj.
  destruct (gen_frame_in_range order np_sin) as (dt & Hdt & Hlen & Hgen).
  eexists _, _. rewrite !Hgen by done. split; [done|]. split; [done|].
  assert (Hprefix : ∀ h, length (tobytes order 2 h) = 2%nat)
    by (intros; apply tobytes_length).
  split.
  - rewrite !length_app, !Hprefix. unfold pairs_bytes.
    rewrite !(flat_map_chunks_length _ 16 (pair_bytes_length order)).
    by rewrite !length_zip_with, !samples_length.
  - intros k Hk.
    destruct (lookup_lt_is_Some_2 dt k) as [d Hd]; [lia|].
    destruct (lookup_lt_is_Some_2 (samples np_sin i) k) as [v Hv];
      [rewrite samples_length; lia|].
    destruct (lookup_lt_is_Some_2 (samples np_sin j) k) as [v' Hv'];
      [rewrite samples_length; lia|].
    rewrite <- !(drop_drop _ _ 2), !drop_app_length' by done.
    destruct (pairs_bytes_chunk order dt _ k d v Hd Hv) as [-> _].
    by destruct (pairs_bytes_chunk order dt _ k d v' Hd Hv') as [-> _].
Qed.

End PayloadFacts.

(** Two arrays of two values and the index 70000, whose prefix is that of
    70000 - 65536 = 4464. *)
Lemma frame_from_arrays_spec_witness :
  Forall (λ x, PrimFloat.is_nan x = false) ([0.25; 0.5] ++ [1; -2])%float ∧
  (FrameGen.frame_from_arrays FrameGen.Little [0.25; 0.5]%float [1; -2]%float 70000 = None ↔
     ¬ (- 2 ^ 63 ≤ 70000 < 2 ^ 64) ∨ length [0.25; 0.5]%float ≠ length [1; -2]%float) ∧
  (- 2 ^ 63 ≤ 70000 < 2 ^ 64 → length [0.25; 0.5]%float = length [1; -2]%float →
   ∃ payload,
     FrameGen.frame_from_arrays FrameGen.Little [0.25; 0.5]%float [1; -2]%float 70000
     = Some payload ∧
     length payload = (2 + 16 * length [0.25; 0.5]%float)%nat ∧
     Forall (λ b, 0 ≤ b < 256) payload ∧
     FrameGen.frombytes FrameGen.Little (take 2 payload) = 70000 mod 65536 ∧
     (∀ payload',
        FrameGen.frame_from_arrays FrameGen.Little [0.25; 0.5]%float [1; -2]%float
          (70000 + 65536) = Some payload' →
        take 2 payload' = take 2 payload) ∧
     ∀ (k : nat) (d v : float),
       [0.25; 0.5]%float !! k = Some d → [1; -2]%float !! k = Some v →
       take 8 (drop (2 + 16 * k) payload) = FrameGen.float64_bytes FrameGen.Little d ∧
       take 8 (drop (2 + 16 * k + 8) payload) = FrameGen.float64_bytes FrameGen.Little v ∧
       FrameGen.float64_frombytes FrameGen.Little (take 8 (drop (2 + 16 * k) payload)) = d ∧
       FrameGen.float64_frombytes FrameGen.Little (take 8 (drop (2 + 16 * k + 8) payload)) = v).
Proof.
  assert (Hnan : Forall (λ x, PrimFloat.is_nan x = false) ([0.25; 0.5] ++ [1; -2])%float)
    by (repeat constructor).
  split; [exact Hnan|].
  exact (frame_from_arrays_spec FrameGen.Little [0.25; 0.5]%float [1; -2]%float 70000 Hnan).
Defined.

Example frame_from_arrays_values :
  FrameGen.frame_from_arrays FrameGen.Little [0.25]%float [-2]%float 70000
  = Some [112; 17; 0; 0; 0; 0; 0; 0; 208; 63; 0; 0; 0; 0; 0; 0; 0; 192] ∧
  FrameGen.frame_from_arrays FrameGen.Little [0.25]%float [-2]%float (2 ^ 64) = None ∧
  FrameGen.frame_from_arrays FrameGen.Little [0.25]%float [] 0 = None.
Proof. repeat split; vm_compute; reflexivity. Qed.

(** The first index and the largest one that fits an unsigned 64-bit
    integer. *)
Lemma deltas_do_not_depend_on_the_index_witness :
  ∃ p q, FrameGen.gen_frame FrameGen.Little (λ x, x) 0 = Some p ∧
         FrameGen.gen_frame FrameGen.Little (λ x, x) 18446744073709551615 = Some q ∧
    length p = length q ∧
    ∀ k : nat, (k < 1000)%nat →
      take 8 (drop (2 + 16 * k) p) = take 8 (drop (2 + 16 * k) q).
Proof.
  apply (deltas_do_not_depend_on_the_index FrameGen.Little (λ x, x) 0 18446744073709551615);
    lia.
Defined.
